(** * AVL tree engine (avl.c, avl.h): shallow embedding and properties

    The C library keeps an intrusive, exclusively owned node graph: every
    node is reachable through exactly one child pointer, there are no
    parent links, and every private routine returns the (possibly new)
    root of the subtree it worked on.  A pointer to a node is therefore
    modelled by the subtree it owns: [NULL], or [Node left right height
    value] for a pointer to a struct with these four fields.  In-place
    field updates become rebuilding the node.

    Integers ([int] heights, comparator results) are [Z].  Cached heights
    of a tree with consistent heights are bounded by the logarithm of the
    node count, far from the 32-bit limit, so no wrap-around is written. *)

From Equations Require Import Equations.
From Stdlib Require Import ZArith List Bool Lia Permutation Sorted.
Import ListNotations.
Local Open Scope Z_scope.

#[local] Arguments Z.add : simpl never.
#[local] Arguments Z.sub : simpl never.
#[local] Arguments Z.opp : simpl never.
#[local] Arguments Z.max : simpl never.
#[local] Arguments Z.abs : simpl never.
#[local] Arguments Z.ltb : simpl never.
#[local] Arguments Z.gtb : simpl never.
#[local] Arguments Z.leb : simpl never.
#[local] Arguments Z.geb : simpl never.
#[local] Arguments Z.eqb : simpl never.
#[local] Arguments Z.of_nat : simpl never.
#[local] Arguments Z.to_nat : simpl never.

(** ** Data model (avl.h) *)

(** A call through a function pointer that is NULL has no defined result. *)
Inductive outcome (A : Type) : Type :=
| Returns (a : A)
| Undefined.
Arguments Returns {A} a.
Arguments Undefined {A}.

Definition bind {A B : Type} (m : outcome A) (k : A -> outcome B) : outcome B :=
  match m with
  | Returns a => k a
  | Undefined => Undefined
  end.

Section Engine.

Context {V : Type}.

(** [avl_node *]: NULL or a pointer to an owned [struct avl_node]. *)
Inductive avl_node : Type :=
| NULL
| Node (left right : avl_node) (height : Z) (value : V).

(** [avl_cmp_node]: the comparison hook receives two node pointers. *)
Definition avl_cmp_node : Type := avl_node -> avl_node -> Z.

(** [struct avl].  The C field [height] is named [avl_height] here since
    [height] is also the name of the private accessor.  The body of the
    release hook is the caller's; only whether it is installed matters to
    the engine, every release being recorded in the log of [_avl_delete]. *)
Record avl : Type := mk_avl {
  root : avl_node;
  avl_height : Z;
  new_node : option (unit -> avl_node);
  dup_node : option (avl_node -> avl_node);
  free_node : bool;
  cmp_node : option avl_cmp_node
}.

(** ** Node primitives *)

Definition height (n : avl_node) : Z :=
  match n with
  | NULL => 0
  | Node _ _ h _ => h
  end.

Definition max (a b : Z) : Z := if a >? b then a else b.

(** [avl_rotate_right(y)]: [x = y->left] becomes the root.  The C code
    dereferences [y] and [y->left] unguarded; on the other shapes the model
    returns its argument (the engine only rotates a node whose balance
    factor exceeds 1, which with consistent heights has that child). *)
Definition avl_rotate_right (y : avl_node) : avl_node :=
  match y with
  | Node (Node xl T2 _ xv) yr _ yv =>
      let y' := Node T2 yr (max (height T2) (height yr) + 1) yv in
      Node xl y' (max (height xl) (height y') + 1) xv
  | _ => y
  end.

Definition avl_rotate_left (x : avl_node) : avl_node :=
  match x with
  | Node xl (Node T2 yr _ yv) _ xv =>
      let x' := Node xl T2 (max (height xl) (height T2) + 1) xv in
      Node x' yr (max (height x') (height yr) + 1) yv
  | _ => x
  end.

Definition avl_get_balance (n : avl_node) : Z :=
  match n with
  | NULL => 0
  | Node l r _ _ => height l - height r
  end.

(** [minimum_node]: the loop down the left spine. *)
Fixpoint minimum_node (n : avl_node) : avl_node :=
  match n with
  | Node (Node _ _ _ _ as l) _ _ _ => minimum_node l
  | _ => n
  end.

(** [_avl_node_new(value)]: a zeroed struct with [value] and height 1
    (allocation is taken to succeed). *)
Definition _avl_node_new (value : V) : avl_node := Node NULL NULL 1 value.

(** ** Insertion *)

(** Lines 445-499 of [_avl_insert]: what happens at [node] once the
    recursive call has stored the new child. *)
Definition insert_unwind (node item : avl_node) (compare : avl_cmp_node) : avl_node :=
  match node with
  | NULL => NULL
  | Node l r _ v =>
      let node := Node l r (1 + max (height l) (height r)) v in
      let balance := avl_get_balance node in
      if (balance >? 1) && (compare item l <? 0) then avl_rotate_right node
      else if (balance <? -1) && (compare item r >? 0) then avl_rotate_left node
      else if (balance >? 1) && (compare item l >? 0) then
        avl_rotate_right (Node (avl_rotate_left l) r (1 + max (height l) (height r)) v)
      else if (balance <? -1) && (compare item r <? 0) then
        avl_rotate_left (Node l (avl_rotate_right r) (1 + max (height l) (height r)) v)
      else node
  end.

Fixpoint _avl_insert (node item : avl_node) (compare : avl_cmp_node) : avl_node :=
  match node, item with
  | NULL, _ => item
  | _, NULL => node
  | Node l r h v, Node _ _ _ _ =>
      let pos := compare item node in
      if pos <? 0 then insert_unwind (Node (_avl_insert l item compare) r h v) item compare
      else if pos >? 0 then insert_unwind (Node l (_avl_insert r item compare) h v) item compare
      else node
  end.

(** ** Deletion *)

(** One node struct handed to the release hook ([by_hook = true]) or to
    [free]; [payload] is the [value] field the struct holds at that time. *)
Record release : Type := Released { by_hook : bool; payload : V }.

(** Lines 595-647 of [_avl_delete]: what happens at [root] after the
    removal step.  No comparator is consulted. *)
Definition delete_unwind (root : avl_node) : avl_node :=
  match root with
  | NULL => NULL
  | Node l r _ v =>
      let root := Node l r (1 + max (height l) (height r)) v in
      let balance := avl_get_balance root in
      if (balance >? 1) && (avl_get_balance l >=? 0) then avl_rotate_right root
      else if (balance >? 1) && (avl_get_balance l <? 0) then
        avl_rotate_right (Node (avl_rotate_left l) r (1 + max (height l) (height r)) v)
      else if (balance <? -1) && (avl_get_balance r <=? 0) then avl_rotate_left root
      else if (balance <? -1) && (avl_get_balance r >? 0) then
        avl_rotate_left (Node l (avl_rotate_right r) (1 + max (height l) (height r)) v)
      else root
  end.

(** The store [temp->value = root_val] where [temp = minimum_node(n)]:
    the leftmost node of [n] gets a new payload. *)
Fixpoint set_minimum_value (n : avl_node) (root_val : V) : avl_node :=
  match n with
  | NULL => NULL
  | Node NULL r h _ => Node NULL r h root_val
  | Node l r h v => Node (set_minimum_value l root_val) r h v
  end.

Fixpoint size (n : avl_node) : nat :=
  match n with
  | NULL => O
  | Node l r _ _ => S (size l + size r)
  end.

(** [_avl_delete(root, target, compare, free_node)] returns the new root of
    the subtree together with the releases it performed, in order.  The
    recursion on the right subtree after the payload swap is not on a
    subterm, hence the measure.  In the one-child case the struct contents
    are swapped before the release, so the released struct holds the
    payload of the matched node.  [minimum_node] of a non-null pointer is
    never NULL; the branch for it only stands in for the missing default
    payload. *)
Equations? _avl_delete (root target : avl_node) (compare : option avl_cmp_node)
    (free_node : bool) : avl_node * list release by wf (size root) lt :=
  _avl_delete NULL _ _ _ := (NULL, []);
  _avl_delete root NULL _ _ := (root, []);
  _avl_delete root _ None _ := (root, []);
  _avl_delete (Node l r h v) target (Some cmp) free_node :=
    let pos := cmp target (Node l r h v) in
    if pos <? 0 then
      let res := _avl_delete l target (Some cmp) free_node in
      (delete_unwind (Node (fst res) r h v), snd res)
    else if pos >? 0 then
      let res := _avl_delete r target (Some cmp) free_node in
      (delete_unwind (Node l (fst res) h v), snd res)
    else
      match l, r with
      | NULL, NULL => (NULL, [Released free_node v])
      | Node _ _ _ _, NULL => (delete_unwind l, [Released free_node v])
      | NULL, Node _ _ _ _ => (delete_unwind r, [Released free_node v])
      | Node _ _ _ _, Node _ _ _ _ =>
          match minimum_node r with
          | NULL => (Node l r h v, [])
          | Node _ _ _ temp_value =>
              let r1 := set_minimum_value r v in
              let res := _avl_delete r1 (minimum_node r1) (Some cmp) free_node in
              (delete_unwind (Node l (fst res) h temp_value), snd res)
          end
      end.
Proof.
  all: try (simpl; lia).
  assert (Hsize : forall n x, size (set_minimum_value n x) = size n).
  { induction n as [|sl IHsl sr IHsr sh sv]; simpl; [reflexivity|].
    destruct sl; simpl in *; [reflexivity|]. intros x. rewrite IHsl. reflexivity. }
  subst r1. rewrite Hsize. lia.
Qed.

(** ** Lookup *)

Fixpoint _avl_find (root target : avl_node) (compare : avl_cmp_node) : avl_node :=
  match root, target with
  | NULL, _ => NULL
  | _, NULL => NULL
  | Node l r _ _, Node _ _ _ _ =>
      let pos := compare target root in
      if pos =? 0 then root
      else if pos <? 0 then _avl_find l target compare
      else if pos >? 0 then _avl_find r target compare
      else NULL
  end.

(** ** Traversals *)

(** [enum avl_order]. *)
Inductive avl_order : Type :=
| avl_forward_order
| avl_reverse_order
| avl_pre_order
| avl_post_order
| avl_tree_order.

(** [action] is the visitor; what it does to the world outside the tree is
    a state transformer on [W].  The walks never change the tree. *)
Section Walks.

Context {W : Type}.

Fixpoint pre_order (root : avl_node) (action : option (avl_node -> W -> W)) (w : W) : W :=
  match root, action with
  | NULL, _ => w
  | _, None => w
  | Node l r _ _, Some act =>
      let w := act root w in
      let w := pre_order l action w in
      pre_order r action w
  end.

Fixpoint forward_order (root : avl_node) (action : option (avl_node -> W -> W)) (w : W) : W :=
  match root, action with
  | NULL, _ => w
  | _, None => w
  | Node l r _ _, Some act =>
      let w := match l with NULL => w | Node _ _ _ _ => forward_order l action w end in
      let w := act root w in
      match r with NULL => w | Node _ _ _ _ => forward_order r action w end
  end.

Fixpoint reverse_order (root : avl_node) (action : option (avl_node -> W -> W)) (w : W) : W :=
  match root, action with
  | NULL, _ => w
  | _, None => w
  | Node l r _ _, Some act =>
      let w := match r with NULL => w | Node _ _ _ _ => reverse_order r action w end in
      let w := act root w in
      match l with NULL => w | Node _ _ _ _ => reverse_order l action w end
  end.

Fixpoint post_order (root : avl_node) (action : option (avl_node -> W -> W)) (w : W) : W :=
  match root, action with
  | NULL, _ => w
  | _, None => w
  | Node l r _ _, Some act =>
      let w := post_order l action w in
      let w := post_order r action w in
      act root w
  end.

(** [__tree_order(root, action, height)]: one pass for one level. *)
Fixpoint __tree_order (root : avl_node) (action : option (avl_node -> W -> W))
    (level : Z) (w : W) : W :=
  match root, action with
  | NULL, _ => w
  | _, None => w
  | Node l r h _, Some act =>
      let w := if h =? level then act root w else w in
      let w := __tree_order l action level w in
      __tree_order r action level w
  end.

(** The loop [for (i = max; i >= 1; --i)] with [n] iterations left: the
    counter [i] is then [n]. *)
Fixpoint tree_order_loop (n : nat) (root : avl_node)
    (action : option (avl_node -> W -> W)) (w : W) : W :=
  match n with
  | O => w
  | S k => tree_order_loop k root action (__tree_order root action (Z.of_nat n) w)
  end.

Definition tree_order (root : avl_node) (action : option (avl_node -> W -> W)) (w : W) : W :=
  match root, action with
  | NULL, _ => w
  | _, None => w
  | Node _ _ h _, Some _ => tree_order_loop (Z.to_nat h) root action w
  end.

Definition _avl_walk (root : avl_node) (order : avl_order)
    (action : option (avl_node -> W -> W)) (w : W) : W :=
  match root with
  | NULL => w
  | Node _ _ _ _ =>
      match order with
      | avl_forward_order => forward_order root action w
      | avl_reverse_order => reverse_order root action w
      | avl_pre_order => pre_order root action w
      | avl_post_order => post_order root action w
      | avl_tree_order => tree_order root action w
      end
  end.

Definition avl_walk (tree : option avl) (order : avl_order)
    (action : option (avl_node -> W -> W)) (w : W) : W :=
  match tree, action with
  | None, _ => w
  | _, None => w
  | Some t, Some _ => _avl_walk (root t) order action w
  end.

End Walks.

(** ** Public functions *)

(** A tree pointer is [option avl]; a call that updates [*tree] returns the
    new content of the struct next to its C result. *)

Definition avl_new : option avl := Some (mk_avl NULL 0 None None false None).

Definition avl_set_new (tree : option avl) (f : option (unit -> avl_node)) : option avl :=
  match tree with
  | None => None
  | Some t => Some (mk_avl (root t) (avl_height t) f (dup_node t) (free_node t) (cmp_node t))
  end.

Definition avl_set_dup (tree : option avl) (f : option (avl_node -> avl_node)) : option avl :=
  match tree with
  | None => None
  | Some t => Some (mk_avl (root t) (avl_height t) (new_node t) f (free_node t) (cmp_node t))
  end.

Definition avl_set_free (tree : option avl) (f : bool) : option avl :=
  match tree with
  | None => None
  | Some t => Some (mk_avl (root t) (avl_height t) (new_node t) (dup_node t) f (cmp_node t))
  end.

Definition avl_set_cmp (tree : option avl) (f : option avl_cmp_node) : option avl :=
  match tree with
  | None => None
  | Some t => Some (mk_avl (root t) (avl_height t) (new_node t) (dup_node t) (free_node t) f)
  end.

(** The two stores [tree->root = new_root; tree->height = height(tree->root)]. *)
Definition commit_root (t : avl) (new_root : avl_node) : avl :=
  mk_avl new_root (height new_root) (new_node t) (dup_node t) (free_node t) (cmp_node t).

(** [_avl_insert] entered with a comparator pointer that may be NULL: the
    two early returns come before the first call through it. *)
Definition enter_avl_insert (node item : avl_node) (compare : option avl_cmp_node)
    : outcome avl_node :=
  match node, item, compare with
  | NULL, _, _ => Returns item
  | _, NULL, _ => Returns node
  | _, _, Some cmp => Returns (_avl_insert node item cmp)
  | _, _, None => Undefined
  end.

(** Likewise for [_avl_find]. *)
Definition enter_avl_find (root target : avl_node) (compare : option avl_cmp_node)
    : outcome avl_node :=
  match root, target, compare with
  | NULL, _, _ => Returns NULL
  | _, NULL, _ => Returns NULL
  | _, _, Some cmp => Returns (_avl_find root target cmp)
  | _, _, None => Undefined
  end.

Definition avl_insert (tree : option avl) (item : avl_node) : outcome (Z * option avl) :=
  match tree, item with
  | None, _ => Returns (-1, tree)
  | _, NULL => Returns (-1, tree)
  | Some t, Node _ _ _ _ =>
      bind (enter_avl_insert (root t) item (cmp_node t)) (fun new_root =>
        match new_root with
        | NULL => Returns (-1, tree)
        | Node _ _ _ _ => Returns (0, Some (commit_root t new_root))
        end)
  end.

(** [avl_delete]: the engine reads [target] only through the comparator,
    so the target is given by the struct it points to when the call is
    made; what the call leaves in that struct when the target is itself a
    node of the tree is not part of the result. *)
Definition avl_delete (tree : option avl) (target : avl_node)
    : Z * option avl * list release :=
  match tree, target with
  | None, _ => (-1, tree, [])
  | _, NULL => (-1, tree, [])
  | Some t, Node _ _ _ _ =>
      let res := _avl_delete (root t) target (cmp_node t) (free_node t) in
      match fst res with
      | NULL => (-1, tree, snd res)
      | Node _ _ _ _ => (0, Some (commit_root t (fst res)), snd res)
      end
  end.

Definition avl_find (tree : option avl) (target : avl_node) : outcome avl_node :=
  match tree, target with
  | None, _ => Returns NULL
  | _, NULL => Returns NULL
  | Some t, Node _ _ _ _ => enter_avl_find (root t) target (cmp_node t)
  end.

Definition avl_node_new (tree : option avl) (value : V) : avl_node :=
  match tree with
  | None => NULL
  | Some t =>
      match new_node t with
      | Some f => f tt
      | None => _avl_node_new value
      end
  end.

(** Without a hook: [_avl_node_new(NULL)] followed by the copy of the
    [value] pointer. *)
Definition avl_node_dup (tree : option avl) (node : avl_node) : avl_node :=
  match tree, node with
  | None, _ => NULL
  | _, NULL => NULL
  | Some t, Node _ _ _ v =>
      match dup_node t with
      | Some f => f node
      | None => _avl_node_new v
      end
  end.

Definition avl_node_cmp (tree : option avl) (a b : avl_node) : Z :=
  match tree, a, b with
  | None, _, _ => 0
  | _, NULL, _ => 0
  | _, _, NULL => 0
  | Some t, Node _ _ _ _, Node _ _ _ _ =>
      match cmp_node t with
      | None => 0
      | Some f => f a b
      end
  end.

(** [dup_tree(tree, &new_root, old_root)]: the new root is threaded through
    the in-order walk of the source. *)
Fixpoint dup_tree (tree : option avl) (new_root old_root : avl_node) : outcome avl_node :=
  match tree, old_root with
  | None, _ => Returns new_root
  | _, NULL => Returns new_root
  | Some t, Node l r _ _ =>
      bind (match l with
            | NULL => Returns new_root
            | Node _ _ _ _ => dup_tree tree new_root l
            end) (fun new_root =>
      let node := avl_node_dup tree old_root in
      bind (match node with
            | NULL => Returns new_root
            | Node _ _ _ _ => enter_avl_insert new_root node (cmp_node t)
            end) (fun new_root =>
      match r with
      | NULL => Returns new_root
      | Node _ _ _ _ => dup_tree tree new_root r
      end))
  end.

(** [avl_dup]: the struct is copied, then [root] and [height] are cleared
    and only [root] is rebuilt (allocation is taken to succeed). *)
Definition avl_dup (tree : option avl) : outcome (option avl) :=
  match tree with
  | None => Returns None
  | Some t =>
      bind (dup_tree tree NULL (root t)) (fun new_root =>
        Returns (Some (mk_avl new_root 0 (new_node t) (dup_node t) (free_node t) (cmp_node t))))
  end.

(** ** Releasing nodes and trees *)

(** [avl_node_free(tree, node)]: the struct goes to the hook when one is
    installed, to [free] otherwise; nothing happens on a null argument. *)
Definition avl_node_free (tree : option avl) (node : avl_node) : list release :=
  match tree, node with
  | None, _ => []
  | _, NULL => []
  | Some t, Node _ _ _ v => [Released (free_node t) v]
  end.

(** [_avl_destroy]: the loop [while (root) root = _avl_delete(root, root,
    compare, free_node)].  The loop has no bound of its own, so the model
    takes the number of iterations it may make; the result is the sequence
    of releases, or [None] when the iterations do not suffice. *)
Fixpoint _avl_destroy (fuel : nat) (root : avl_node) (compare : option avl_cmp_node)
    (free_node : bool) : option (list release) :=
  match root with
  | NULL => Some []
  | Node _ _ _ _ =>
      match fuel with
      | O => None
      | S k =>
          let res := _avl_delete root root compare free_node in
          match _avl_destroy k (fst res) compare free_node with
          | Some log => Some (snd res ++ log)
          | None => None
          end
      end
  end.

(** [avl_free(tree)]: the nodes are destroyed, then the tree struct itself
    is freed (the latter is not part of the log). *)
Definition avl_free (fuel : nat) (tree : option avl) : option (list release) :=
  match tree with
  | None => Some []
  | Some t =>
      match root t with
      | NULL => Some []
      | Node _ _ _ _ => _avl_destroy fuel (root t) (cmp_node t) (free_node t)
      end
  end.

(** The number of nodes on the longest path from a node down to a leaf. *)
Fixpoint depth (n : avl_node) : nat :=
  match n with
  | NULL => O
  | Node l r _ _ => S (Nat.max (depth l) (depth r))
  end.

(** ** Invariants and vocabulary of the properties *)

(** Every node pointer of a tree, root first. *)
Fixpoint nodes (n : avl_node) : list avl_node :=
  match n with
  | NULL => []
  | Node l r _ _ => n :: nodes l ++ nodes r
  end.

(** The AVL condition at one node, on the cached heights. *)
Definition node_ok (n : avl_node) : Prop :=
  match n with
  | NULL => True
  | Node l r h _ =>
      Z.abs (height l - height r) <= 1 /\ h = 1 + Z.max (height l) (height r)
  end.

Fixpoint avl_inv (n : avl_node) : Prop :=
  match n with
  | NULL => True
  | Node l r _ _ => avl_inv l /\ avl_inv r /\ node_ok n
  end.

(** The key order seen through the comparator: payloads compared inside
    fresh nodes. *)
Definition key (cmp : avl_cmp_node) (v w : V) : Z :=
  cmp (_avl_node_new v) (_avl_node_new w).

(** A pure total-order comparator: the result depends on the two payloads
    only, and is a total order up to the equivalence [key cmp v w = 0]. *)
Record total_order (cmp : avl_cmp_node) : Prop := {
  cmp_payload : forall l r h v l' r' h' w,
    cmp (Node l r h v) (Node l' r' h' w) = key cmp v w;
  cmp_antisym : forall v w, Z.sgn (key cmp v w) = - Z.sgn (key cmp w v);
  cmp_trans : forall u v w, key cmp u v < 0 -> key cmp v w < 0 -> key cmp u w < 0;
  cmp_equiv : forall u v w, key cmp u v = 0 -> Z.sgn (key cmp u w) = Z.sgn (key cmp v w)
}.

(** Shape of a subtree whose height an insertion of payload [iv] has just
    raised: the new leaf itself, or a node leaning to the side the new
    payload went. *)
Definition grew (cmp : avl_cmp_node) (iv : V) (t : avl_node) : Prop :=
  match t with
  | NULL => False
  | Node l r _ v =>
      (l = NULL /\ r = NULL) \/
      (key cmp iv v < 0 /\ height l = height r + 1) \/
      (key cmp iv v > 0 /\ height r = height l + 1)
  end.

(** Of the payloads [vs], those whose key differs from the key of [tv]. *)
Definition other_keys (cmp : avl_cmp_node) (tv : V) (vs : list V) : list V :=
  filter (fun w => negb (key cmp tv w =? 0)) vs.

(** Of the payloads [vs], those whose key equals the key of [tv]. *)
Definition same_keys (cmp : avl_cmp_node) (tv : V) (vs : list V) : list V :=
  filter (fun w => key cmp tv w =? 0) vs.

(** Of the payloads [vs], those whose key is below, resp. above, the key
    of [k]. *)
Definition lower_keys (cmp : avl_cmp_node) (k : V) (vs : list V) : list V :=
  filter (fun w => key cmp w k <? 0) vs.

Definition upper_keys (cmp : avl_cmp_node) (k : V) (vs : list V) : list V :=
  filter (fun w => key cmp w k >? 0) vs.

(** The payload a tree holds for the key of [k] once [k] is inserted: the
    one it held already, or [k]. *)
Definition kept_or_new (cmp : avl_cmp_node) (k : V) (vs : list V) : list V :=
  match same_keys cmp k vs with
  | [] => [k]
  | w :: ws => w :: ws
  end.

(** Nodes of a tree, children before their parent. *)
Fixpoint postorder (n : avl_node) : list avl_node :=
  match n with
  | NULL => []
  | Node l r _ _ => postorder l ++ postorder r ++ [n]
  end.

(** Payloads in left-to-right order. *)
Fixpoint values (n : avl_node) : list V :=
  match n with
  | NULL => []
  | Node l r _ v => values l ++ v :: values r
  end.

(** The search-tree ordering: left payloads below, right payloads above. *)
Fixpoint bst (cmp : avl_cmp_node) (n : avl_node) : Prop :=
  match n with
  | NULL => True
  | Node l r _ v =>
      bst cmp l /\ bst cmp r /\
      Forall (fun x => key cmp x v < 0) (values l) /\
      Forall (fun x => key cmp x v > 0) (values r)
  end.

(** The visitor that records the node it is called on; a walk started on
    the empty record yields the sequence of nodes [action] is invoked on. *)
Definition record_visit (n : avl_node) (w : list avl_node) : list avl_node := w ++ [n].

(** Payloads held by a sequence of node pointers. *)
Definition payloads (ns : list avl_node) : list V :=
  flat_map (fun n => match n with NULL => [] | Node _ _ _ v => [v] end) ns.

(** Every node pointer of a tree, left to right. *)
Fixpoint inorder (n : avl_node) : list avl_node :=
  match n with
  | NULL => []
  | Node l r _ _ => inorder l ++ n :: inorder r
  end.

(** The nodes of a tree whose cached height is [level], root first. *)
Definition at_level (root : avl_node) (level : Z) : list avl_node :=
  filter (fun n => height n =? level) (nodes root).

(** The levels [h, h-1, ..., 1]. *)
Definition levels (h : Z) : list Z := map Z.of_nat (rev (seq 1 (Z.to_nat h))).

(** Trees reachable from an empty tree with comparator [cmp] installed by
    successful [avl_insert] calls of fresh nodes and successful
    [avl_delete] calls. *)
Inductive reachable (cmp : avl_cmp_node) : avl -> Prop :=
| reach_empty t :
    root t = NULL -> cmp_node t = Some cmp -> reachable cmp t
| reach_insert t v t' :
    reachable cmp t ->
    avl_insert (Some t) (_avl_node_new v) = Returns (0, Some t') ->
    reachable cmp t'
| reach_delete t target t' log :
    reachable cmp t ->
    avl_delete (Some t) target = (0, Some t', log) ->
    reachable cmp t'.

End Engine.

(** ** The comparator of the demonstration program (test-avl.c)

    The program stores small integers in the [value] pointer and compares
    them after a cast to [int], which is the identity on them. *)

Definition compare (a b : @avl_node Z) : Z :=
  match a, b with
  | NULL, _ => 0
  | _, NULL => 0
  | Node _ _ _ va, Node _ _ _ vb =>
      if va =? vb then 0 else if va <? vb then -1 else if va >? vb then 1 else 0
  end.

(** The tree of the demonstration program. *)
Definition demo_keys : list Z := [10; 20; 30; 40; 50; 25; 49; 16; 26; 32].

Definition build (keys : list Z) : avl_node :=
  fold_left (fun t v => _avl_insert t (_avl_node_new v) compare) keys NULL.

(** An empty tree with that comparator installed, the tree holding the
    single key 10, and the tree of the demonstration program. *)
Definition empty_tree : @avl Z := mk_avl NULL 0 None None false (Some compare).

Definition one_tree : @avl Z := mk_avl (Node NULL NULL 1 10) 1 None None false (Some compare).

Definition tree_of (keys : list Z) : @avl Z :=
  mk_avl (build keys) (height (build keys)) None None false (Some compare).

Definition demo_tree : @avl Z := tree_of demo_keys.

(** The tree of the demonstration program once key 16 is deleted. *)
Definition demo_tree_less_16 : @avl Z :=
  mk_avl
    (Node (Node (Node NULL NULL 1 10) (Node NULL (Node NULL NULL 1 26) 2 25) 3 20)
          (Node (Node (Node NULL NULL 1 32) NULL 2 40) (Node NULL NULL 1 50) 3 49)
          4 30)
    4 None None false (Some compare).

(** A tree of two nodes leaning left, and what [avl_dup] makes of it. *)
Definition left_tree : @avl Z :=
  mk_avl (Node (Node NULL NULL 1 10) NULL 2 20) 2 None None false (Some compare).

Definition left_tree_dup : @avl Z :=
  mk_avl (Node NULL (Node NULL NULL 1 20) 2 10) 0 None None false (Some compare).

(** * Properties *)

Section NodePrimitives.

Context {V : Type}.
Implicit Types n l r : @avl_node V.

Lemma max_Zmax (a b : Z) : max a b = Z.max a b.
Proof. unfold max. destruct (a >? b) eqn:E; lia. Qed.

Lemma avl_inv_height_nonneg n : avl_inv n -> 0 <= height n.
Proof.
  induction n as [|l IHl r IHr h v]; simpl; [lia|].
  intros (Hl & Hr & Hb & Hh). specialize (IHl Hl). specialize (IHr Hr). lia.
Qed.

Lemma avl_inv_height_pos l r h (v : V) : avl_inv (Node l r h v) -> 1 <= h.
Proof.
  simpl. intros (Hl & Hr & Hb & Hh).
  pose proof (avl_inv_height_nonneg l Hl). pose proof (avl_inv_height_nonneg r Hr). lia.
Qed.

Lemma avl_inv_nodes n : avl_inv n <-> Forall node_ok (nodes n).
Proof.
  induction n as [|l IHl r IHr h v]; simpl.
  - split; auto.
  - rewrite IHl, IHr. split.
    + intros (Hl & Hr & Hn). constructor; [exact Hn|]. apply Forall_app. auto.
    + intros H. inversion H as [|? ? Hn Hrest]; subst.
      apply Forall_app in Hrest. destruct Hrest as [Hl Hr].
      split; [exact Hl|]. split; [exact Hr|exact Hn].
Qed.

End NodePrimitives.


(** ** Insertion keeps the AVL condition *)

Ltac zbool :=
  repeat match goal with
  | |- context [?a >? ?b] => destruct (Z.gtb_spec a b)
  | |- context [?a <? ?b] => destruct (Z.ltb_spec a b)
  | |- context [?a >=? ?b] => destruct (Z.geb_spec a b)
  | |- context [?a <=? ?b] => destruct (Z.leb_spec a b)
  | |- context [?a =? ?b] => destruct (Z.eqb_spec a b)
  end; cbn [andb orb negb].

Ltac inv_arith :=
  cbn [avl_inv node_ok height grew] in *; rewrite ?max_Zmax in *;
  repeat match goal with
  | H : _ /\ _ |- _ => destruct H
  | H : avl_inv ?t |- _ =>
      lazymatch goal with
      | _ : 0 <= height t |- _ => fail
      | _ => pose proof (avl_inv_height_nonneg t H)
      end
  end.

Ltac solve_inv :=
  inv_arith; repeat split; try assumption; try lia; try (left; lia).

Section InsertInvariant.

Context {V : Type}.
Variable cmp : @avl_cmp_node V.
Hypothesis Hpure : forall l r h v l' r' h' w,
  cmp (Node l r h v) (Node l' r' h' w) = key cmp v w.

Lemma insert_unwind_inv l r h v il ir ih iv hl0 hr0 :
  avl_inv l -> avl_inv r ->
  Z.abs (hl0 - hr0) <= 1 -> 0 <= hl0 -> 0 <= hr0 ->
  (key cmp iv v < 0 /\ height r = hr0 /\
     (height l = hl0 \/ height l = hl0 + 1 /\ grew cmp iv l)) \/
  (key cmp iv v > 0 /\ height l = hl0 /\
     (height r = hr0 \/ height r = hr0 + 1 /\ grew cmp iv r)) ->
  let t' := insert_unwind (Node l r h v) (Node il ir ih iv) cmp in
  avl_inv t' /\
  (height t' = 1 + Z.max hl0 hr0 \/
   height t' = 2 + Z.max hl0 hr0 /\ grew cmp iv t').
Proof.
  intros Hl Hr Hb Hl0 Hr0 Hcase. cbv zeta.
  unfold insert_unwind. cbn [avl_get_balance height].
  destruct (Z.gtb_spec (height l - height r) 1) as [Hgt|Hgt]; cbn [andb].
  - (* left too high *)
    destruct Hcase as [(Hk & Hhr & [Hh|(Hh & Hg)])|(Hk & Hhl & Hh)]; try lia.
    destruct l as [|ll lr lh lv]; [cbn in Hg; tauto|].
    rewrite Hpure.
    destruct Hg as [(-> & ->)|[Hg|Hg]]; [inv_arith; cbn [height] in *; lia| |].
    + destruct (Z.ltb_spec (key cmp iv lv) 0) as [Hlt|Hlt]; [|lia].
      cbn [avl_rotate_right]. solve_inv.
    + destruct (Z.ltb_spec (key cmp iv lv) 0) as [Hlt|Hlt]; [lia|].
      destruct (Z.ltb_spec (height (Node ll lr lh lv) - height r) (-1)); [lia|]. cbn [andb].
      destruct (Z.gtb_spec (key cmp iv lv) 0) as [Hgt'|Hgt']; [|lia].
      destruct lr as [|lrl lrr lrh lrv]; [inv_arith; cbn [height] in *; lia|].
      cbn [avl_rotate_left avl_rotate_right height]. solve_inv.
  - destruct (Z.ltb_spec (height l - height r) (-1)) as [Hlt|Hlt]; cbn [andb].
    + (* right too high *)
      destruct Hcase as [(Hk & Hhr & Hh)|(Hk & Hhl & [Hh|(Hh & Hg)])]; try lia.
      destruct r as [|rl rr rh rv]; [cbn in Hg; tauto|].
      rewrite Hpure.
      destruct Hg as [(-> & ->)|[Hg|Hg]]; [inv_arith; cbn [height] in *; lia| |].
      * destruct (Z.gtb_spec (key cmp iv rv) 0) as [Hgt'|Hgt']; [lia|].
        destruct (Z.ltb_spec (key cmp iv rv) 0) as [Hlt'|Hlt']; [|lia].
        destruct rl as [|rll rlr rlh rlv]; [inv_arith; cbn [height] in *; lia|].
        cbn [avl_rotate_left avl_rotate_right height]. solve_inv.
      * destruct (Z.gtb_spec (key cmp iv rv) 0) as [Hgt'|Hgt']; [|lia].
        cbn [avl_rotate_left]. solve_inv.
    + (* balanced *)
      inv_arith. repeat split; try assumption; lia.
Qed.

Lemma _avl_insert_grows t iv :
  avl_inv t ->
  let t' := _avl_insert t (_avl_node_new iv) cmp in
  avl_inv t' /\
  (height t' = height t \/ height t' = height t + 1 /\ grew cmp iv t').
Proof.
  change (_avl_node_new iv) with (Node NULL NULL 1 iv).
  induction t as [|l IHl r IHr h v]; intros Hinv; cbv zeta.
  - cbn. repeat split; try lia. right. split; [lia|]. left. split; reflexivity.
  - cbn [_avl_insert]. rewrite Hpure.
    pose proof Hinv as (Hl & Hr & Hb & Hh).
    pose proof (avl_inv_height_nonneg l Hl) as Hl0.
    pose proof (avl_inv_height_nonneg r Hr) as Hr0.
    specialize (IHl Hl). specialize (IHr Hr). cbv zeta in IHl, IHr.
    destruct IHl as (IHl1 & IHl2). destruct IHr as (IHr1 & IHr2).
    destruct (Z.ltb_spec (key cmp iv v) 0) as [Hlt|Hlt].
    + destruct (insert_unwind_inv (_avl_insert l (Node NULL NULL 1 iv) cmp) r h v
                  NULL NULL 1 iv (height l) (height r))
        as (Hi & Hh'); try assumption.
      { left. repeat split; try assumption; try reflexivity. }
      split; [exact Hi|]. cbn [height].
      destruct Hh' as [Hh'|(Hh' & Hg)]; [left; lia|right; split; [lia|exact Hg]].
    + destruct (Z.gtb_spec (key cmp iv v) 0) as [Hgt|Hgt].
      * destruct (insert_unwind_inv l (_avl_insert r (Node NULL NULL 1 iv) cmp) h v
                    NULL NULL 1 iv (height l) (height r))
          as (Hi & Hh'); try assumption.
        { right. repeat split; try assumption; try reflexivity. lia. }
        split; [exact Hi|]. cbn [height].
      destruct Hh' as [Hh'|(Hh' & Hg)]; [left; lia|right; split; [lia|exact Hg]].
      * split; [exact Hinv|left; reflexivity].
Qed.

Lemma _avl_insert_avl_inv t iv :
  avl_inv t -> avl_inv (_avl_insert t (_avl_node_new iv) cmp).
Proof. intros H. apply (_avl_insert_grows t iv H). Qed.

End InsertInvariant.

(** ** Deletion keeps the AVL condition *)

Section DeleteInvariant.

Context {V : Type}.
Implicit Types n l r root target : @avl_node V.

Lemma delete_unwind_inv l r h v :
  avl_inv l -> avl_inv r ->
  -2 <= height l - height r <= 2 ->
  let t' := delete_unwind (Node l r h v) in
  avl_inv t' /\
  (height t' = 1 + Z.max (height l) (height r) \/
   Z.abs (height l - height r) = 2 /\ height t' = Z.max (height l) (height r)).
Proof.
  intros Hl Hr Hb. cbv zeta. unfold delete_unwind. cbn [avl_get_balance height].
  destruct (Z.gtb_spec (height l - height r) 1) as [Hgt|Hgt]; cbn [andb].
  - destruct l as [|ll lr lh lv]; [inv_arith; lia|].
    cbn [avl_get_balance].
    destruct (Z.geb_spec (height ll - height lr) 0) as [Hge|Hge].
    + cbn [avl_rotate_right]. solve_inv.
    + destruct (Z.ltb_spec (height ll - height lr) 0) as [Hlt|Hlt]; [|lia].
      destruct lr as [|lrl lrr lrh lrv]; [inv_arith; lia|].
      cbn [avl_rotate_left avl_rotate_right height]. solve_inv.
  - destruct (Z.ltb_spec (height l - height r) (-1)) as [Hlt|Hlt]; cbn [andb].
    + destruct r as [|rl rr rh rv]; [inv_arith; lia|].
      cbn [avl_get_balance].
      destruct (Z.leb_spec (height rl - height rr) 0) as [Hle|Hle].
      * cbn [avl_rotate_left]. solve_inv.
      * destruct (Z.gtb_spec (height rl - height rr) 0) as [Hgt'|Hgt']; [|lia].
        destruct rl as [|rll rlr rlh rlv]; [inv_arith; lia|].
        cbn [avl_rotate_left avl_rotate_right height]. solve_inv.
    + solve_inv.
Qed.

(** On a node that already meets the AVL condition the unwind step only
    rewrites the height it already has. *)
Lemma delete_unwind_idle l r h v :
  avl_inv (Node l r h v) -> delete_unwind (Node l r h v) = Node l r h v.
Proof.
  intros (Hl & Hr & Hb & Hh). unfold delete_unwind. cbn [avl_get_balance height].
  rewrite max_Zmax, <- Hh.
  destruct (Z.gtb_spec (height l - height r) 1); [lia|].
  destruct (Z.ltb_spec (height l - height r) (-1)); [lia|]. reflexivity.
Qed.

Lemma minimum_node_not_null l r h (v : V) : minimum_node (Node l r h v) <> NULL.
Proof.
  revert r h v. induction l as [|ll IHll lr _ lh lv]; intros r h v; [discriminate|].
  cbn [minimum_node]. apply IHll.
Qed.

Lemma set_minimum_value_height n x : height (set_minimum_value n x) = height n.
Proof. destruct n as [|[|] r h v]; reflexivity. Qed.

Lemma set_minimum_value_avl_inv n x : avl_inv n -> avl_inv (set_minimum_value n x).
Proof.
  induction n as [|l IHl r IHr h v]; [trivial|].
  intros (Hl & Hr & Hb & Hh). destruct l as [|ll lr lh lv].
  - cbn. auto.
  - change (set_minimum_value (Node (Node ll lr lh lv) r h v) x)
      with (Node (set_minimum_value (Node ll lr lh lv) x) r h v).
    cbn [avl_inv node_ok]. rewrite set_minimum_value_height.
    split; [apply IHl; exact Hl|]. auto.
Qed.

Lemma _avl_delete_inv root target compare hook :
  avl_inv root ->
  let t' := fst (_avl_delete root target compare hook) in
  avl_inv t' /\ (height t' = height root \/ height t' = height root - 1).
Proof.
  cbv zeta.
  apply (_avl_delete_elim
    (fun root target compare hook res =>
       avl_inv root ->
       avl_inv (fst res) /\
       (height (fst res) = height root \/ height (fst res) = height root - 1)));
    clear root target compare hook.
  - intros; cbn; auto.
  - intros; cbn [fst]; auto.
  - intros l r h v tl tr th tv cmp hook IHl IHr IHm Hinv. cbv zeta in *.
    pose proof Hinv as (Hl & Hr & Hb & Hh).
    pose proof (avl_inv_height_nonneg l Hl) as Hl0.
    pose proof (avl_inv_height_nonneg r Hr) as Hr0.
    destruct (cmp (Node tl tr th tv) (Node l r h v) <? 0).
    { destruct (IHl Hl) as (Hl' & Hhl'). cbn [fst].
      destruct (delete_unwind_inv (fst (_avl_delete l (Node tl tr th tv) (Some cmp) hook))
                  r h v Hl' Hr) as (Hi & Hh'); [lia|].
      split; [exact Hi|]. cbn [height]. lia. }
    destruct (cmp (Node tl tr th tv) (Node l r h v) >? 0).
    { destruct (IHr Hr) as (Hr' & Hhr'). cbn [fst].
      destruct (delete_unwind_inv l (fst (_avl_delete r (Node tl tr th tv) (Some cmp) hook))
                  h v Hl Hr') as (Hi & Hh'); [lia|].
      split; [exact Hi|]. cbn [height]. lia. }
    destruct l as [|ll lr lh lv], r as [|rl rr rh rv]; cbn [fst].
    + cbn. split; [trivial|]. cbn in Hh. lia.
    + rewrite (delete_unwind_idle _ _ _ _ Hr). split; [exact Hr|]. cbn [height] in *. lia.
    + rewrite (delete_unwind_idle _ _ _ _ Hl). split; [exact Hl|]. cbn [height] in *. lia.
    + destruct (minimum_node (Node rl rr rh rv)) as [|ml mr mh mv] eqn:Hmin.
      { cbn [fst]. split; [exact Hinv|left; reflexivity]. }
      cbn [fst].
      specialize (IHm NULL NULL 0 v NULL NULL 0 v NULL NULL 0 v).
      pose proof (set_minimum_value_avl_inv _ v Hr) as Hr1.
      destruct (IHm Hr1) as (Hr' & Hhr').
      rewrite set_minimum_value_height in Hhr'.
      destruct (delete_unwind_inv (Node ll lr lh lv)
                  (fst (_avl_delete (set_minimum_value (Node rl rr rh rv) v)
                          (minimum_node (set_minimum_value (Node rl rr rh rv) v))
                          (Some cmp) hook))
                  h mv Hl Hr') as (Hi & Hh'); [lia|].
      split; [exact Hi|]. cbn [height]. lia.
  - intros; cbn [fst]; auto.
Qed.

End DeleteInvariant.

(** ** The comparator of the demonstration program is a total order *)

Lemma compare_total_order : total_order compare.
Proof.
  split.
  - intros. reflexivity.
  - intros v w. unfold key, compare, _avl_node_new. zbool; lia.
  - intros u v w. unfold key, compare, _avl_node_new. zbool; lia.
  - intros u v w. unfold key, compare, _avl_node_new. zbool; lia.
Qed.

(** ** C1: the AVL invariant on reachable trees *)

Section Reachable.

Context {V : Type}.
Variable cmp : @avl_cmp_node V.
Hypothesis Hcmp : total_order cmp.

Lemma enter_avl_insert_installed n il ir ih iv :
  enter_avl_insert n (Node il ir ih iv) (Some cmp)
  = Returns (_avl_insert n (Node il ir ih iv) cmp).
Proof. destruct n; reflexivity. Qed.

Lemma reachable_inv t :
  reachable cmp t -> cmp_node t = Some cmp /\ avl_inv (root t).
Proof.
  induction 1 as [t Hroot Hc|t v t' Hreach IH Hins|t target t' log Hreach IH Hdel].
  - rewrite Hroot. split; [exact Hc|exact I].
  - destruct IH as (Hc & Hinv).
    unfold avl_insert, _avl_node_new in Hins. rewrite Hc in Hins.
    rewrite enter_avl_insert_installed in Hins. cbn [bind] in Hins.
    pose proof (_avl_insert_avl_inv cmp (cmp_payload cmp Hcmp) (root t) v Hinv) as Hinv'.
    unfold _avl_node_new in Hinv'.
    destruct (_avl_insert (root t) (Node NULL NULL 1 v) cmp) eqn:E;
      inversion Hins; subst t'.
    cbn. split; [exact Hc|exact Hinv'].
  - destruct IH as (Hc & Hinv).
    unfold avl_delete in Hdel. destruct target as [|tl tr th tv]; [inversion Hdel|].
    pose proof (_avl_delete_inv (root t) (Node tl tr th tv) (cmp_node t) (free_node t) Hinv)
      as (Hinv' & _).
    destruct (fst (_avl_delete (root t) (Node tl tr th tv) (cmp_node t) (free_node t)))
      eqn:E; inversion Hdel; subst t'.
    cbn. split; [exact Hc|exact Hinv'].
Qed.

(** C1, as the code has it.  In every tree reachable from an empty tree (comparator installed,
    a pure total order) by successful [avl_insert] calls of fresh nodes and
    successful [avl_delete] calls, every node [n] has
    [|height(n.left) - height(n.right)| <= 1] and
    [n.height = 1 + max(height(n.left), height(n.right))], the height of an
    absent node being 0. *)
Theorem reachable_avl_invariant t :
  reachable cmp t ->
  forall n, In n (nodes (root t)) -> node_ok n.
Proof.
  intros Hreach. destruct (reachable_inv t Hreach) as (_ & Hinv).
  apply avl_inv_nodes in Hinv. rewrite Forall_forall in Hinv. exact Hinv.
Qed.

End Reachable.

(** ** Traversals as folds over node sequences *)

Section WalkFolds.

Context {V W : Type}.
Variable act : @avl_node V -> W -> W.
Implicit Types root l r : @avl_node V.

Let run (ns : list (@avl_node V)) (w : W) : W := fold_left (fun w n => act n w) ns w.

Lemma forward_order_fold root w :
  forward_order root (Some act) w = run (inorder root) w.
Proof.
  revert w. induction root as [|l IHl r IHr h v]; intros w; [reflexivity|].
  cbn [forward_order inorder]. unfold run. rewrite fold_left_app. cbn [fold_left].
  fold (run (inorder l) w).
  replace (match l with NULL => w | Node _ _ _ _ => forward_order l (Some act) w end)
    with (run (inorder l) w) by (rewrite <- IHl; destruct l; reflexivity).
  destruct r as [|rl rr rh rv]; [reflexivity|]. apply IHr.
Qed.

Lemma reverse_order_fold root w :
  reverse_order root (Some act) w = run (rev (inorder root)) w.
Proof.
  revert w. induction root as [|l IHl r IHr h v]; intros w; [reflexivity|].
  cbn [reverse_order inorder]. rewrite rev_app_distr. cbn [rev].
  rewrite <- app_assoc. unfold run. rewrite fold_left_app. cbn [app fold_left].
  fold (run (rev (inorder r)) w).
  replace (match r with NULL => w | Node _ _ _ _ => reverse_order r (Some act) w end)
    with (run (rev (inorder r)) w) by (rewrite <- IHr; destruct r; reflexivity).
  destruct l as [|ll lr lh lv]; [reflexivity|]. apply IHl.
Qed.

Lemma pre_order_fold root w :
  pre_order root (Some act) w = run (nodes root) w.
Proof.
  revert w. induction root as [|l IHl r IHr h v]; intros w; [reflexivity|].
  cbn [pre_order nodes]. unfold run. cbn [fold_left]. rewrite fold_left_app.
  rewrite IHl, IHr. reflexivity.
Qed.

Lemma __tree_order_fold root level w :
  __tree_order root (Some act) level w
  = run (filter (fun n => height n =? level) (nodes root)) w.
Proof.
  revert w. induction root as [|l IHl r IHr h v]; intros w; [reflexivity|].
  cbn [__tree_order nodes filter height]. rewrite filter_app. rewrite IHl, IHr.
  unfold run. destruct (h =? level); cbn [fold_left]; rewrite fold_left_app; reflexivity.
Qed.

Lemma tree_order_loop_fold k root w :
  tree_order_loop k root (Some act) w
  = run (flat_map (fun level => filter (fun n => height n =? level) (nodes root))
           (map Z.of_nat (rev (seq 1 k)))) w.
Proof.
  revert w. induction k as [|k IH]; intros w; [reflexivity|].
  cbn [tree_order_loop]. rewrite IH, __tree_order_fold.
  rewrite seq_S, rev_app_distr. cbn [rev app map flat_map].
  unfold run. rewrite fold_left_app. reflexivity.
Qed.

End WalkFolds.

Section WalkRecords.

Context {V : Type}.
Implicit Types root : @avl_node V.

Lemma run_record (ns w : list (@avl_node V)) :
  fold_left (fun w n => record_visit n w) ns w = w ++ ns.
Proof.
  revert w. induction ns as [|n ns IH]; intros w; cbn [fold_left].
  - rewrite app_nil_r. reflexivity.
  - rewrite IH. unfold record_visit. rewrite <- app_assoc. reflexivity.
Qed.

Lemma forward_order_record root :
  forward_order root (Some record_visit) [] = inorder root.
Proof. rewrite forward_order_fold. apply run_record. Qed.

Lemma reverse_order_record root :
  reverse_order root (Some record_visit) [] = rev (inorder root).
Proof. rewrite reverse_order_fold. apply run_record. Qed.

Lemma pre_order_record root :
  pre_order root (Some record_visit) [] = nodes root.
Proof. rewrite pre_order_fold. apply run_record. Qed.

Lemma inorder_nodes root : Permutation (inorder root) (nodes root).
Proof.
  induction root as [|l IHl r IHr h v]; cbn [inorder nodes]; [constructor|].
  rewrite <- Permutation_middle. constructor. apply Permutation_app; assumption.
Qed.

Lemma payloads_app (a b : list (@avl_node V)) : payloads (a ++ b) = payloads a ++ payloads b.
Proof. unfold payloads. apply flat_map_app. Qed.

Lemma payloads_inorder root : payloads (inorder root) = values root.
Proof.
  induction root as [|l IHl r IHr h v]; cbn [inorder values]; [reflexivity|].
  rewrite payloads_app. cbn. rewrite IHl. fold (payloads (inorder r)). rewrite IHr.
  reflexivity.
Qed.

End WalkRecords.

(** ** Order facts from the comparator contract *)

Section Ordering.

Context {V : Type}.
Variable cmp : @avl_cmp_node V.
Hypothesis Hcmp : total_order cmp.
Implicit Types root l r : @avl_node V.

Lemma key_flip_lt v w : key cmp v w < 0 <-> key cmp w v > 0.
Proof.
  pose proof (cmp_antisym cmp Hcmp v w) as H.
  destruct (key cmp v w), (key cmp w v); cbn in H; split; intros; try lia;
    try discriminate.
Qed.

Lemma key_flip_eq v w : key cmp v w = 0 <-> key cmp w v = 0.
Proof.
  pose proof (cmp_antisym cmp Hcmp v w) as H.
  destruct (key cmp v w), (key cmp w v); cbn in H; split; intros; try lia;
    try discriminate.
Qed.

Lemma key_refl v : key cmp v v = 0.
Proof.
  pose proof (cmp_antisym cmp Hcmp v v) as H.
  destruct (key cmp v v); cbn in H; try lia; discriminate.
Qed.

Lemma key_equiv_lt u v w : key cmp u v = 0 -> key cmp v w < 0 -> key cmp u w < 0.
Proof.
  intros He Hl. pose proof (cmp_equiv cmp Hcmp u v w He) as H.
  destruct (key cmp u w), (key cmp v w); cbn in H; try lia; discriminate.
Qed.

Lemma key_equiv_gt u v w : key cmp u v = 0 -> key cmp v w > 0 -> key cmp u w > 0.
Proof.
  intros He Hl. pose proof (cmp_equiv cmp Hcmp u v w He) as H.
  destruct (key cmp u w), (key cmp v w); cbn in H; try lia; discriminate.
Qed.

Lemma sorted_join (R : V -> V -> Prop) (l1 l2 : list V) (x : V) :
  StronglySorted R l1 -> StronglySorted R l2 ->
  Forall (fun a => R a x) l1 -> Forall (R x) l2 ->
  (forall a b, In a l1 -> In b l2 -> R a b) ->
  StronglySorted R (l1 ++ x :: l2).
Proof.
  intros H1 H2 Hx1 Hx2 H12. induction l1 as [|a l1 IH]; cbn [app].
  - constructor; assumption.
  - inversion H1 as [|? ? Hs Hf]; subst. inversion Hx1 as [|? ? Hax Hx1']; subst.
    constructor.
    + apply IH; try assumption. intros; apply H12; [right|]; assumption.
    + apply Forall_app. split; [assumption|]. constructor; [assumption|].
      rewrite Forall_forall. intros b Hb. apply H12; [left; reflexivity|assumption].
Qed.

Lemma bst_values_sorted root :
  bst cmp root -> StronglySorted (fun a b => key cmp a b < 0) (values root).
Proof.
  induction root as [|l IHl r IHr h v]; cbn [bst values]; [constructor|].
  intros (Hl & Hr & Hlv & Hrv). apply sorted_join; auto.
  - rewrite Forall_forall in *. intros b Hb. apply key_flip_lt. auto.
  - rewrite Forall_forall in *. intros a b Ha Hb.
    apply (cmp_trans cmp Hcmp a v b); [auto|]. apply key_flip_lt. auto.
Qed.

Lemma inorder_not_null root : Forall (fun n => n <> NULL) (inorder root).
Proof.
  induction root as [|l IHl r IHr h v]; cbn [inorder]; [constructor|].
  apply Forall_app. split; [assumption|]. constructor; [discriminate|assumption].
Qed.

Lemma payloads_in l r h v (ns : list (@avl_node V)) :
  In (Node l r h v) ns -> In v (payloads ns).
Proof.
  unfold payloads. intros H. apply in_flat_map. exists (Node l r h v).
  split; [assumption|left; reflexivity].
Qed.

Lemma nodes_sorted (ns : list (@avl_node V)) :
  Forall (fun n => n <> NULL) ns ->
  StronglySorted (fun a b => key cmp a b < 0) (payloads ns) ->
  StronglySorted (fun a b => cmp a b <= 0) ns.
Proof.
  induction ns as [|n ns IH]; intros Hnn Hs; [constructor|].
  inversion Hnn as [|? ? Hn Hnn']; subst.
  destruct n as [|l r h v]; [congruence|].
  change (payloads (Node l r h v :: ns)) with (v :: payloads ns) in Hs.
  inversion Hs as [|? ? Hs' Hf]; subst.
  constructor; [apply IH; assumption|].
  rewrite Forall_forall in *. intros b Hb.
  destruct b as [|bl br bh bv]; [exfalso; apply (Hnn' NULL Hb); reflexivity|].
  rewrite (cmp_payload cmp Hcmp). apply Z.lt_le_incl. apply Hf.
  apply (payloads_in bl br bh bv ns Hb).
Qed.

(** C5.  On a tree with the search-tree ordering, the forward walk invokes
    the action once on every node, in non-decreasing key order, and the
    reverse walk invokes it on exactly the reversed sequence; with any
    action, each walk is the action run along that sequence. *)
Theorem forward_reverse_walks root :
  bst cmp root ->
  let forward := forward_order root (Some record_visit) [] in
  let reverse := reverse_order root (Some record_visit) [] in
  Permutation forward (nodes root) /\
  StronglySorted (fun a b => cmp a b <= 0) forward /\
  reverse = rev forward /\
  (forall (W : Type) (act : avl_node -> W -> W) (w : W),
     forward_order root (Some act) w = fold_left (fun w n => act n w) forward w /\
     reverse_order root (Some act) w = fold_left (fun w n => act n w) reverse w).
Proof.
  intros Hbst. cbv zeta. rewrite forward_order_record, reverse_order_record.
  split; [apply inorder_nodes|]. split.
  - apply nodes_sorted; [apply inorder_not_null|].
    rewrite payloads_inorder. apply bst_values_sorted. exact Hbst.
  - split; [reflexivity|]. intros W act w.
    split; [apply forward_order_fold|apply reverse_order_fold].
Qed.

End Ordering.

(** ** C8: the tree-order walk *)

Section TreeOrder.

Context {V : Type}.
Implicit Types root l r : @avl_node V.

Lemma at_level_height root level n : In n (at_level root level) -> height n = level.
Proof.
  unfold at_level. intros H. apply filter_In in H. destruct H as [_ H].
  apply Z.eqb_eq. exact H.
Qed.

Lemma passes_height root k n :
  In n (flat_map (at_level root) (map Z.of_nat (rev (seq 1 k)))) ->
  1 <= height n <= Z.of_nat k.
Proof.
  intros H. apply in_flat_map in H. destruct H as (level & Hl & Hn).
  apply at_level_height in Hn. apply in_map_iff in Hl. destruct Hl as (i & <- & Hi).
  apply in_rev, in_seq in Hi. lia.
Qed.

Lemma passes_sorted root k :
  StronglySorted (fun a b => height a >= height b)
    (flat_map (at_level root) (map Z.of_nat (rev (seq 1 k)))).
Proof.
  induction k as [|k IH]; [constructor|].
  rewrite seq_S, rev_app_distr. cbn [rev app map flat_map].
  change (1 + k)%nat with (S k).
  assert (Hchunk : forall ns,
            Forall (fun n => height n = Z.of_nat (S k)) ns ->
            StronglySorted (fun a b => height a >= height b)
              (ns ++ flat_map (at_level root) (map Z.of_nat (rev (seq 1 k))))).
  { induction ns as [|n ns IHns]; intros Hns; [exact IH|].
    inversion Hns as [|? ? Hn Hns']; subst. cbn [app]. constructor; [auto|].
    apply Forall_app. split.
    - rewrite Forall_forall in *. intros b Hb. rewrite (Hns' b Hb). lia.
    - rewrite Forall_forall. intros b Hb. apply passes_height in Hb. lia. }
  apply Hchunk. rewrite Forall_forall. intros n Hn. apply (at_level_height root _ n Hn).
Qed.

Lemma passes_cover (ns : list (@avl_node V)) k :
  Permutation
    (flat_map (fun level => filter (fun n => height n =? level) ns)
       (map Z.of_nat (rev (seq 1 k))))
    (filter (fun n => (1 <=? height n) && (height n <=? Z.of_nat k)) ns).
Proof.
  induction k as [|k IH].
  - cbn [seq rev map flat_map].
    induction ns as [|n ns IHns]; cbn [filter]; [constructor|].
    destruct (Z.leb_spec 1 (height n)), (Z.leb_spec (height n) (Z.of_nat 0));
      cbn [andb]; try exact IHns. lia.
  - rewrite seq_S, rev_app_distr. cbn [rev app map flat_map].
    change (1 + k)%nat with (S k). rewrite IH. clear IH.
    induction ns as [|n ns IHns]; cbn [filter app]; [constructor|].
    destruct (Z.eqb_spec (height n) (Z.of_nat (S k))) as [He|He];
      destruct (Z.leb_spec 1 (height n)); destruct (Z.leb_spec (height n) (Z.of_nat k));
      destruct (Z.leb_spec (height n) (Z.of_nat (S k)));
      cbn [andb app]; try lia; try exact IHns.
    + constructor. exact IHns.
    + rewrite <- Permutation_middle. constructor. exact IHns.
Qed.

Lemma nodes_height_range root :
  avl_inv root -> Forall (fun n => 1 <= height n <= height root) (nodes root).
Proof.
  induction root as [|l IHl r IHr h v]; intros Hinv; [constructor|].
  pose proof (avl_inv_height_pos _ _ _ _ Hinv) as Hpos.
  destruct Hinv as (Hl & Hr & Hb & Hh). cbn [nodes height].
  constructor; [cbn [height]; lia|]. apply Forall_app. split.
  - eapply Forall_impl; [|exact (IHl Hl)]. cbn beta. intros n Hn. lia.
  - eapply Forall_impl; [|exact (IHr Hr)]. cbn beta. intros n Hn. lia.
Qed.

(** C8.  On a non-empty tree the tree-order walk makes one pass per level,
    from the root's cached height down to 1; the pass for a level is a
    pre-order descent that invokes the action exactly on the nodes whose
    cached height equals that level.  The root comes first and the levels
    follow one another in decreasing order; when the cached heights are
    consistent, the root's is the largest and every node is visited once. *)
Theorem tree_order_by_level l r h (v : V) :
  let root := Node l r h v in
  let visited := tree_order root (Some record_visit) [] in
  (forall (W : Type) (act : avl_node -> W -> W) (w : W),
     tree_order root (Some act) w
     = fold_left (fun w level => __tree_order root (Some act) level w) (levels h) w) /\
  (forall level,
     __tree_order root (Some record_visit) level []
     = filter (fun n => height n =? level) (pre_order root (Some record_visit) [])) /\
  visited = flat_map (fun level => __tree_order root (Some record_visit) level []) (levels h) /\
  (1 <= h -> hd_error visited = Some root) /\
  StronglySorted (fun a b => height a >= height b) visited /\
  (avl_inv root ->
   Forall (fun n => height n <= h) (nodes root) /\ Permutation visited (nodes root)).
Proof.
  cbv zeta.
  assert (Hpass : forall level,
            __tree_order (Node l r h v) (Some record_visit) level []
            = at_level (Node l r h v) level).
  { intros level. rewrite __tree_order_fold. apply run_record. }
  assert (Hvisited : tree_order (Node l r h v) (Some record_visit) []
                     = flat_map (at_level (Node l r h v)) (levels h)).
  { unfold tree_order, levels. rewrite tree_order_loop_fold. apply run_record. }
  split; [|split; [|split; [|split; [|split]]]].
  - intros W act w. unfold tree_order, levels.
    generalize (Z.to_nat h). intros k. revert w.
    induction k as [|k IH]; intros w; [reflexivity|].
    cbn [tree_order_loop]. rewrite IH.
    rewrite seq_S, rev_app_distr. reflexivity.
  - intros level. rewrite Hpass, pre_order_record. reflexivity.
  - rewrite Hvisited. apply flat_map_ext. intros level. symmetry. apply Hpass.
  - intros Hh. rewrite Hvisited. unfold levels.
    destruct (Z.to_nat h) as [|k] eqn:Hk; [lia|].
    rewrite seq_S, rev_app_distr. cbn [rev app map flat_map].
    unfold at_level at 1. cbn [nodes filter height].
    replace (Z.of_nat (1 + k)) with h by lia. rewrite Z.eqb_refl. reflexivity.
  - rewrite Hvisited. unfold levels. apply passes_sorted.
  - intros Hinv. pose proof (nodes_height_range _ Hinv) as Hrange. cbn [height] in Hrange.
    split; [eapply Forall_impl; [|exact Hrange]; cbn beta; intros n Hn; lia|].
    rewrite Hvisited. unfold levels, at_level. rewrite passes_cover.
    pose proof (avl_inv_height_pos _ _ _ _ Hinv) as Hpos.
    rewrite forallb_filter_id; [reflexivity|].
    apply forallb_forall. rewrite Forall_forall in Hrange. intros n Hn.
    specialize (Hrange n Hn). apply andb_true_intro. split; apply Z.leb_le; lia.
Qed.

End TreeOrder.

(** ** C9: lookup *)

Section Lookup.

Context {V : Type}.
Variable cmp : @avl_cmp_node V.
Hypothesis Hcmp : total_order cmp.
Implicit Types root l r target : @avl_node V.

Lemma nodes_not_null root n : In n (nodes root) -> n <> NULL.
Proof.
  intros H. apply (Permutation_in _ (Permutation_sym (inorder_nodes root))) in H.
  pose proof (inorder_not_null root) as Hnn. rewrite Forall_forall in Hnn. auto.
Qed.

Lemma nodes_values root l r h v : In (Node l r h v) (nodes root) -> In v (values root).
Proof.
  intros H. apply (Permutation_in _ (Permutation_sym (inorder_nodes root))) in H.
  rewrite <- payloads_inorder. apply (payloads_in l r h v _ H).
Qed.

Lemma values_nodes root v : In v (values root) -> exists l r h, In (Node l r h v) (nodes root).
Proof.
  rewrite <- payloads_inorder. unfold payloads. intros H. apply in_flat_map in H.
  destruct H as (n & Hn & Hv). destruct n as [|l r h w]; [contradiction|].
  destruct Hv as [->|[]]. exists l, r, h.
  apply (Permutation_in _ (inorder_nodes root)). exact Hn.
Qed.

Lemma nodes_self l r h (v : V) : In (Node l r h v) (nodes (Node l r h v)).
Proof. left. reflexivity. Qed.

Lemma nodes_left l r h (v : V) n : In n (nodes l) -> In n (nodes (Node l r h v)).
Proof. intros H. cbn [nodes]. right. apply in_or_app. left. exact H. Qed.

Lemma nodes_right l r h (v : V) n : In n (nodes r) -> In n (nodes (Node l r h v)).
Proof. intros H. cbn [nodes]. right. apply in_or_app. right. exact H. Qed.

(** A payload equivalent to the probe lies on the side the descent takes. *)
Lemma match_goes_left l r h v tv w :
  bst cmp (Node l r h v) -> key cmp tv v < 0 ->
  In w (values (Node l r h v)) -> key cmp tv w = 0 -> In w (values l).
Proof.
  intros (_ & _ & _ & Hrv) Hlt Hin He. cbn [values] in Hin.
  apply in_app_or in Hin. destruct Hin as [Hin|[<-|Hin]]; [assumption|lia|].
  rewrite Forall_forall in Hrv. pose proof (key_equiv_gt cmp Hcmp tv w v He (Hrv w Hin)). lia.
Qed.

Lemma match_goes_right l r h v tv w :
  bst cmp (Node l r h v) -> key cmp tv v > 0 ->
  In w (values (Node l r h v)) -> key cmp tv w = 0 -> In w (values r).
Proof.
  intros (_ & _ & Hlv & _) Hgt Hin He. cbn [values] in Hin.
  apply in_app_or in Hin. destruct Hin as [Hin|[<-|Hin]]; [|lia|assumption].
  rewrite Forall_forall in Hlv. pose proof (key_equiv_lt cmp Hcmp tv w v He (Hlv w Hin)). lia.
Qed.

Lemma _avl_find_hit root tl tr th tv :
  bst cmp root ->
  (exists w, In w (values root) /\ key cmp tv w = 0) ->
  exists l r h w,
    _avl_find root (Node tl tr th tv) cmp = Node l r h w /\
    In (Node l r h w) (nodes root) /\ key cmp tv w = 0.
Proof.
  induction root as [|l IHl r IHr h v]; intros Hbst (w & Hin & He); [contradiction|].
  cbn [_avl_find]. rewrite (cmp_payload cmp Hcmp).
  destruct (Z.eqb_spec (key cmp tv v) 0) as [Hz|Hz].
  { exists l, r, h, v. split; [reflexivity|]. split; [apply nodes_self|exact Hz]. }
  pose proof Hbst as (Hl & Hr & _).
  destruct (Z.ltb_spec (key cmp tv v) 0) as [Hlt|Hge].
  - destruct (IHl Hl) as (fl & fr & fh & fw & Hf & Hn & Hk).
    { exists w. split; [|exact He]. apply (match_goes_left l r h v tv w); assumption. }
    exists fl, fr, fh, fw. split; [exact Hf|]. split; [apply nodes_left; exact Hn|exact Hk].
  - destruct (Z.gtb_spec (key cmp tv v) 0) as [Hgt|Hle]; [|lia].
    destruct (IHr Hr) as (fl & fr & fh & fw & Hf & Hn & Hk).
    { exists w. split; [|exact He]. apply (match_goes_right l r h v tv w); try assumption. lia. }
    exists fl, fr, fh, fw. split; [exact Hf|]. split; [apply nodes_right; exact Hn|exact Hk].
Qed.

Lemma _avl_find_miss root tl tr th tv :
  (forall w, In w (values root) -> key cmp tv w <> 0) ->
  _avl_find root (Node tl tr th tv) cmp = NULL.
Proof.
  induction root as [|l IHl r IHr h v]; intros Hno; [reflexivity|].
  cbn [_avl_find]. rewrite (cmp_payload cmp Hcmp).
  assert (Hv : key cmp tv v <> 0).
  { apply Hno. cbn [values]. apply in_or_app. right. left. reflexivity. }
  destruct (Z.eqb_spec (key cmp tv v) 0) as [Hz|Hz]; [contradiction|].
  destruct (Z.ltb_spec (key cmp tv v) 0).
  - apply IHl. intros w Hw. apply Hno. cbn [values]. apply in_or_app. left. exact Hw.
  - destruct (Z.gtb_spec (key cmp tv v) 0); [|reflexivity].
    apply IHr. intros w Hw. apply Hno. cbn [values]. apply in_or_app. right. right. exact Hw.
Qed.

(** C9.  With a comparator installed (a pure total order) and the
    search-tree ordering, [avl_find] on a non-null target returns a node of
    the tree that compares equal to the target when there is one, and NULL
    when there is none; a null tree or a null target also yields NULL. *)
Theorem avl_find_result (t : avl) tl tr th (tv : V) :
  cmp_node t = Some cmp -> bst cmp (root t) ->
  let target := Node tl tr th tv in
  ((exists n, In n (nodes (root t)) /\ cmp target n = 0) ->
   exists n, avl_find (Some t) target = Returns n /\
             In n (nodes (root t)) /\ cmp target n = 0) /\
  ((forall n, In n (nodes (root t)) -> cmp target n <> 0) ->
   avl_find (Some t) target = Returns NULL) /\
  avl_find None target = Returns NULL /\
  avl_find (Some t) NULL = Returns NULL.
Proof.
  intros Hc Hbst. cbv zeta.
  assert (Henter : avl_find (Some t) (Node tl tr th tv)
                   = Returns (_avl_find (root t) (Node tl tr th tv) cmp)).
  { unfold avl_find, enter_avl_find. rewrite Hc. destruct (root t); reflexivity. }
  split; [|split; [|split; reflexivity]].
  - intros (n & Hn & He).
    destruct n as [|nl nr nh nv]; [exfalso; apply (nodes_not_null _ _ Hn); reflexivity|].
    rewrite (cmp_payload cmp Hcmp) in He.
    destruct (_avl_find_hit (root t) tl tr th tv Hbst) as (l & r & h & w & Hf & Hin & Hk).
    { exists nv. split; [apply (nodes_values _ nl nr nh nv Hn)|exact He]. }
    exists (Node l r h w). rewrite Henter, Hf.
    split; [reflexivity|]. split; [exact Hin|]. rewrite (cmp_payload cmp Hcmp). exact Hk.
  - intros Hno. rewrite Henter. f_equal. apply _avl_find_miss.
    intros w Hw He. destruct (values_nodes _ _ Hw) as (l & r & h & Hn).
    apply (Hno _ Hn). rewrite (cmp_payload cmp Hcmp). exact He.
Qed.

End Lookup.

(** ** C2: inserting a key that is already present *)

Section DuplicateInsert.

Context {V : Type}.
Variable cmp : @avl_cmp_node V.
Hypothesis Hcmp : total_order cmp.
Implicit Types root l r item : @avl_node V.

Lemma insert_unwind_idle l r h v item :
  avl_inv (Node l r h v) -> insert_unwind (Node l r h v) item cmp = Node l r h v.
Proof.
  intros (Hl & Hr & Hb & Hh). unfold insert_unwind. cbn [avl_get_balance height].
  rewrite max_Zmax, <- Hh.
  destruct (Z.gtb_spec (height l - height r) 1); [lia|].
  destruct (Z.ltb_spec (height l - height r) (-1)); [lia|]. reflexivity.
Qed.

Lemma _avl_insert_duplicate root il ir ih iv :
  bst cmp root -> avl_inv root ->
  (exists w, In w (values root) /\ key cmp iv w = 0) ->
  _avl_insert root (Node il ir ih iv) cmp = root.
Proof.
  induction root as [|l IHl r IHr h v]; intros Hbst Hinv (w & Hin & He); [contradiction|].
  cbn [_avl_insert]. rewrite (cmp_payload cmp Hcmp).
  pose proof Hbst as (Hbl & Hbr & _). pose proof Hinv as (Hil & Hir & _).
  destruct (Z.ltb_spec (key cmp iv v) 0) as [Hlt|Hge].
  - rewrite IHl; [apply insert_unwind_idle; exact Hinv|assumption|assumption|].
    exists w. split; [|exact He]. apply (match_goes_left cmp Hcmp l r h v iv w); assumption.
  - destruct (Z.gtb_spec (key cmp iv v) 0) as [Hgt|Hle]; [|reflexivity].
    rewrite IHr; [apply insert_unwind_idle; exact Hinv|assumption|assumption|].
    exists w. split; [|exact He].
    apply (match_goes_right cmp Hcmp l r h v iv w); try assumption. lia.
Qed.

(** C2, as the code has it.  With a comparator installed (a pure total
    order), on a tree with the search-tree ordering and the AVL condition,
    [avl_insert] of a non-null item whose key equals the key of a node of
    the tree returns 0; the root and every node below it are left as they
    were (so the item is not linked in), the cached tree height is the
    root's height and the hooks are untouched. *)
Theorem avl_insert_duplicate (t : avl) il ir ih (iv : V) :
  cmp_node t = Some cmp -> bst cmp (root t) -> avl_inv (root t) ->
  let item := Node il ir ih iv in
  (exists n, In n (nodes (root t)) /\ cmp item n = 0) ->
  exists t',
    avl_insert (Some t) item = Returns (0, Some t') /\
    root t' = root t /\ avl_height t' = height (root t) /\
    nodes (root t') = nodes (root t) /\
    new_node t' = new_node t /\ dup_node t' = dup_node t /\
    free_node t' = free_node t /\ cmp_node t' = cmp_node t.
Proof.
  intros Hc Hbst Hinv item (n & Hn & He). subst item.
  destruct n as [|nl nr nh nv]; [exfalso; apply (nodes_not_null _ _ Hn); reflexivity|].
  rewrite (cmp_payload cmp Hcmp) in He.
  assert (Hsame : _avl_insert (root t) (Node il ir ih iv) cmp = root t).
  { apply _avl_insert_duplicate; try assumption.
    exists nv. split; [apply (nodes_values _ nl nr nh nv Hn)|exact He]. }
  exists (commit_root t (root t)).
  assert (Hroot : root t <> NULL).
  { intros E. rewrite E in Hn. contradiction. }
  split.
  - unfold avl_insert. rewrite Hc, enter_avl_insert_installed. cbn [bind].
    rewrite Hsame. destruct (root t); [congruence|reflexivity].
  - cbn. repeat split; reflexivity.
Qed.

End DuplicateInsert.


(** ** C6: duplication *)

Section Duplicate.

Context {V : Type}.
Variable cmp : @avl_cmp_node V.
Hypothesis Hcmp : total_order cmp.
Implicit Types root l r item acc : @avl_node V.

Lemma values_rotate_right root : values (avl_rotate_right root) = values root.
Proof.
  destruct root as [|[|xl xr xh xv] yr yh yv]; try reflexivity.
  cbn [avl_rotate_right values]. rewrite <- app_assoc. reflexivity.
Qed.

Lemma values_rotate_left root : values (avl_rotate_left root) = values root.
Proof.
  destruct root as [|xl [|yl yr yh yv] xh xv]; try reflexivity.
  cbn [avl_rotate_left values]. rewrite <- app_assoc. reflexivity.
Qed.

Lemma values_insert_unwind root item : values (insert_unwind root item cmp) = values root.
Proof.
  destruct root as [|l r h v]; [reflexivity|]. unfold insert_unwind.
  repeat match goal with
  | |- context [if ?c then _ else _] => destruct c
  end;
  rewrite ?values_rotate_right, ?values_rotate_left; cbn [values];
  rewrite ?values_rotate_right, ?values_rotate_left; reflexivity.
Qed.

(** A payload above all others goes to the right end. *)
Lemma values_insert_last root k :
  Forall (fun x => key cmp x k < 0) (values root) ->
  values (_avl_insert root (Node NULL NULL 1 k) cmp) = values root ++ [k].
Proof.
  induction root as [|l IHl r IHr h v]; intros Hall; [reflexivity|].
  cbn [_avl_insert]. rewrite (cmp_payload cmp Hcmp).
  cbn [values] in Hall. apply Forall_app in Hall. destruct Hall as [_ Hall].
  inversion Hall as [|? ? Hv Hr]; subst.
  apply (key_flip_lt cmp Hcmp) in Hv.
  destruct (Z.ltb_spec (key cmp k v) 0); [lia|].
  destruct (Z.gtb_spec (key cmp k v) 0); [|lia].
  rewrite values_insert_unwind. cbn [values]. rewrite (IHr Hr).
  rewrite <- app_assoc. reflexivity.
Qed.

Lemma sorted_before (R : V -> V -> Prop) (l1 l2 : list V) (x : V) :
  StronglySorted R (l1 ++ x :: l2) -> Forall (fun a => R a x) l1.
Proof.
  induction l1 as [|a l1 IH]; cbn [app]; intros H; [constructor|].
  inversion H as [|? ? Hs Hf]; subst. constructor; [|apply IH; exact Hs].
  rewrite Forall_forall in Hf. apply Hf. apply in_or_app. right. left. reflexivity.
Qed.

Lemma fold_insert_ascending (ks : list V) acc :
  avl_inv acc ->
  StronglySorted (fun a b => key cmp a b < 0) (values acc ++ ks) ->
  let res := fold_left (fun a k => _avl_insert a (Node NULL NULL 1 k) cmp) ks acc in
  avl_inv res /\ values res = values acc ++ ks.
Proof.
  revert acc. induction ks as [|k ks IH]; intros acc Hinv Hs; cbv zeta; cbn [fold_left].
  - rewrite app_nil_r. auto.
  - pose proof (sorted_before _ _ _ _ Hs) as Hall.
    pose proof (values_insert_last acc k Hall) as Hv.
    pose proof (_avl_insert_avl_inv cmp (cmp_payload cmp Hcmp) acc k Hinv) as Hinv'.
    unfold _avl_node_new in Hinv'.
    destruct (IH (_avl_insert acc (Node NULL NULL 1 k) cmp) Hinv') as (Hi & Hval).
    { rewrite Hv, <- app_assoc. exact Hs. }
    split; [exact Hi|]. rewrite Hval, Hv, <- app_assoc. reflexivity.
Qed.

Variable t : @avl V.
Hypothesis Hc : cmp_node t = Some cmp.
Hypothesis Hdup : forall l r h v, avl_node_dup (Some t) (Node l r h v) = _avl_node_new v.

Lemma dup_tree_fold old acc :
  dup_tree (Some t) acc old
  = Returns (fold_left (fun a n => _avl_insert a (avl_node_dup (Some t) n) cmp)
               (inorder old) acc).
Proof.
  revert acc. induction old as [|l IHl r IHr h v]; intros acc; [reflexivity|].
  cbn [dup_tree inorder]. rewrite fold_left_app. cbn [fold_left].
  replace (match l with NULL => Returns acc | Node _ _ _ _ => dup_tree (Some t) acc l end)
    with (dup_tree (Some t) acc l) by (destruct l; reflexivity).
  rewrite IHl. cbn [bind]. rewrite Hdup. unfold _avl_node_new.
  rewrite Hc, enter_avl_insert_installed. cbn [bind].
  destruct r as [|rl rr rh rv]; [reflexivity|]. apply IHr.
Qed.

Lemma fold_dup_payloads (ns : list (@avl_node V)) acc :
  Forall (fun n => n <> NULL) ns ->
  fold_left (fun a n => _avl_insert a (avl_node_dup (Some t) n) cmp) ns acc
  = fold_left (fun a k => _avl_insert a (Node NULL NULL 1 k) cmp) (payloads ns) acc.
Proof.
  revert acc. induction ns as [|n ns IH]; intros acc Hnn; [reflexivity|].
  inversion Hnn as [|? ? Hn Hnn']; subst. destruct n as [|l r h v]; [congruence|].
  change (payloads (Node l r h v :: ns)) with (v :: payloads ns).
  cbn [fold_left]. rewrite Hdup. apply IH. exact Hnn'.
Qed.

Lemma avl_dup_sound :
  bst cmp (root t) ->
  exists t',
    avl_dup (Some t) = Returns (Some t') /\
    payloads (forward_order (root t') (Some record_visit) [])
    = payloads (forward_order (root t) (Some record_visit) []) /\
    (forall n, In n (nodes (root t')) -> node_ok n) /\
    root t' = fold_left (fun new_root n => _avl_insert new_root (avl_node_dup (Some t) n) cmp)
                (forward_order (root t) (Some record_visit) []) NULL /\
    new_node t' = new_node t /\ dup_node t' = dup_node t /\
    free_node t' = free_node t /\ cmp_node t' = cmp_node t.
Proof.
  intros Hbst. unfold avl_dup. rewrite dup_tree_fold. cbn [bind].
  eexists. split; [reflexivity|]. cbn [root new_node dup_node free_node cmp_node].
  rewrite !forward_order_record, !payloads_inorder.
  rewrite fold_dup_payloads by apply inorder_not_null. rewrite payloads_inorder.
  destruct (fold_insert_ascending (values (root t)) NULL I) as (Hi & Hv).
  { cbn [values app]. apply bst_values_sorted; assumption. }
  cbv zeta in Hi, Hv. cbn [values app] in Hv.
  split; [exact Hv|]. split; [|repeat split; reflexivity].
  apply avl_inv_nodes in Hi. rewrite Forall_forall in Hi. exact Hi.
Qed.

End Duplicate.

(** ** The search-tree ordering is kept by insertion and deletion *)

Section SearchTree.

Context {V : Type}.
Variable cmp : @avl_cmp_node V.
Hypothesis Hcmp : total_order cmp.
Implicit Types root l r item : @avl_node V.

Lemma sorted_split (R : V -> V -> Prop) (l1 l2 : list V) (x : V) :
  StronglySorted R (l1 ++ x :: l2) ->
  StronglySorted R l1 /\ StronglySorted R l2 /\
  Forall (fun a => R a x) l1 /\ Forall (R x) l2.
Proof.
  induction l1 as [|a l1 IH]; cbn [app]; intros H.
  - inversion H; subst. repeat split; auto; constructor.
  - inversion H as [|? ? Hs Hf]; subst. destruct (IH Hs) as (H1 & H2 & H3 & H4).
    apply Forall_app in Hf. destruct Hf as [Hf1 Hf2]. inversion Hf2; subst.
    repeat split; auto; constructor; auto.
Qed.

Lemma sorted_values_bst root :
  StronglySorted (fun a b => key cmp a b < 0) (values root) -> bst cmp root.
Proof.
  induction root as [|l IHl r IHr h v]; cbn [values bst]; [trivial|].
  intros H. apply sorted_split in H. destruct H as (Hl & Hr & Hlv & Hvr).
  split; [auto|]. split; [auto|]. split; [exact Hlv|].
  eapply Forall_impl; [|exact Hvr]. cbn beta. intros w Hw.
  apply (key_flip_lt cmp Hcmp). exact Hw.
Qed.

Lemma bst_same_values root root' :
  values root' = values root -> bst cmp root -> bst cmp root'.
Proof.
  intros E H. apply sorted_values_bst. rewrite E.
  apply (bst_values_sorted cmp Hcmp). exact H.
Qed.

Lemma values_delete_unwind root : values (delete_unwind root) = values root.
Proof.
  destruct root as [|l r h v]; [reflexivity|]. unfold delete_unwind.
  repeat match goal with
  | |- context [if ?c then _ else _] => destruct c
  end;
  rewrite ?values_rotate_right, ?values_rotate_left; cbn [values];
  rewrite ?values_rotate_right, ?values_rotate_left; reflexivity.
Qed.

Lemma _avl_insert_Forall (P : V -> Prop) root k :
  Forall P (values root) -> P k ->
  Forall P (values (_avl_insert root (Node NULL NULL 1 k) cmp)).
Proof.
  induction root as [|l IHl r IHr h v]; intros Hall Hk.
  - cbn. constructor; [exact Hk|constructor].
  - cbn [_avl_insert]. cbn [values] in Hall. apply Forall_app in Hall.
    destruct Hall as [Hl Hvr]. inversion Hvr as [|? ? Hv Hr]; subst.
    destruct (cmp (Node NULL NULL 1 k) (Node l r h v) <? 0).
    { rewrite (values_insert_unwind cmp). cbn [values]. apply Forall_app.
      split; [apply IHl; assumption|constructor; assumption]. }
    destruct (cmp (Node NULL NULL 1 k) (Node l r h v) >? 0).
    { rewrite (values_insert_unwind cmp). cbn [values]. apply Forall_app.
      split; [assumption|constructor; [assumption|apply IHr; assumption]]. }
    cbn [values]. apply Forall_app. split; [assumption|constructor; assumption].
Qed.

Lemma _avl_insert_bst root k :
  bst cmp root -> bst cmp (_avl_insert root (Node NULL NULL 1 k) cmp).
Proof.
  induction root as [|l IHl r IHr h v]; intros Hbst.
  - cbn. repeat split; constructor.
  - cbn [_avl_insert]. rewrite (cmp_payload cmp Hcmp).
    destruct Hbst as (Hl & Hr & Hlv & Hrv).
    destruct (Z.ltb_spec (key cmp k v) 0) as [Hlt|Hge].
    { apply (bst_same_values (Node (_avl_insert l (Node NULL NULL 1 k) cmp) r h v));
        [apply (values_insert_unwind cmp)|].
      cbn [bst]. split; [apply IHl; exact Hl|]. split; [exact Hr|].
      split; [apply _avl_insert_Forall; assumption|exact Hrv]. }
    destruct (Z.gtb_spec (key cmp k v) 0) as [Hgt|Hle].
    { apply (bst_same_values (Node l (_avl_insert r (Node NULL NULL 1 k) cmp) h v));
        [apply (values_insert_unwind cmp)|].
      cbn [bst]. split; [exact Hl|]. split; [apply IHr; exact Hr|].
      split; [exact Hlv|apply _avl_insert_Forall; [assumption|lia]]. }
    cbn [bst]. auto.
Qed.

(** The leftmost node holds the first payload; the store through
    [minimum_node] replaces exactly that payload. *)
Lemma minimum_node_values l r h v ml mr mh mv :
  minimum_node (Node l r h v) = Node ml mr mh mv ->
  exists rest,
    values (Node l r h v) = mv :: rest /\
    forall x,
      values (set_minimum_value (Node l r h v) x) = x :: rest /\
      exists ml' mr' mh',
        minimum_node (set_minimum_value (Node l r h v) x) = Node ml' mr' mh' x.
Proof.
  revert r h v. induction l as [|ll IHll lr _ lh lv]; intros r h v Hmin.
  - cbn in Hmin. injection Hmin as <- <- <- <-. exists (values r).
    split; [reflexivity|]. intros x. split; [reflexivity|].
    exists NULL, r, h. reflexivity.
  - cbn [minimum_node] in Hmin. destruct (IHll lr lh lv Hmin) as (rest & Hv & Hset).
    exists (rest ++ v :: values r). split.
    + cbn [values] in *. rewrite Hv. reflexivity.
    + intros x. destruct (Hset x) as (Hvx & ml' & mr' & mh' & Hmx).
      change (set_minimum_value (Node (Node ll lr lh lv) r h v) x)
        with (Node (set_minimum_value (Node ll lr lh lv) x) r h v).
      split.
      * cbn [values] in *. rewrite Hvx. reflexivity.
      * exists ml', mr', mh'.
        destruct (set_minimum_value (Node ll lr lh lv) x) eqn:E; [discriminate|].
        cbn [minimum_node]. exact Hmx.
Qed.

Lemma other_keys_app tv (a b : list V) :
  other_keys cmp tv (a ++ b) = other_keys cmp tv a ++ other_keys cmp tv b.
Proof. apply filter_app. Qed.

Lemma other_keys_all tv (vs : list V) :
  Forall (fun w => key cmp tv w <> 0) vs -> other_keys cmp tv vs = vs.
Proof.
  intros H. apply forallb_filter_id. apply forallb_forall.
  rewrite Forall_forall in H. intros w Hw. specialize (H w Hw).
  destruct (Z.eqb_spec (key cmp tv w) 0); [contradiction|reflexivity].
Qed.

Lemma other_keys_sorted tv (vs : list V) :
  StronglySorted (fun a b => key cmp a b < 0) vs -> StronglySorted (fun a b => key cmp a b < 0) (other_keys cmp tv vs).
Proof.
  induction 1 as [|a vs Hs IH Hf]; cbn; [constructor|].
  destruct (negb (key cmp tv a =? 0)); [|exact IH].
  constructor; [exact IH|]. rewrite Forall_forall in *. intros w Hw.
  apply filter_In in Hw. apply Hf. tauto.
Qed.

(** On a search tree, [_avl_delete] leaves exactly the payloads whose key
    differs from the target's, in the same order. *)
Lemma _avl_delete_values root tl tr th tv hook :
  bst cmp root ->
  values (fst (_avl_delete root (Node tl tr th tv) (Some cmp) hook))
  = other_keys cmp tv (values root).
Proof.
  intros Hbst.
  enough (Hall : forall root target compare hook tl tr th tv,
             compare = Some cmp -> target = Node tl tr th tv -> bst cmp root ->
             values (fst (_avl_delete root target compare hook))
             = other_keys cmp tv (values root))
    by (apply (Hall root _ _ hook tl tr th tv eq_refl eq_refl Hbst)).
  clear root tl tr th tv hook Hbst. intros root target compare hook.
  apply (_avl_delete_elim
    (fun root target compare hook res =>
       forall tl tr th tv,
         compare = Some cmp -> target = Node tl tr th tv -> bst cmp root ->
         values (fst res) = other_keys cmp tv (values root)));
    clear root target compare hook.
  - intros; reflexivity.
  - intros. discriminate.
  - intros l r h v tl tr th tv cmp' hook IHl IHr IHm tl' tr' th' tv' Ec Et Hbst.
    injection Ec as ->. injection Et as -> -> -> ->. cbv zeta in *.
    rewrite (cmp_payload cmp Hcmp).
    pose proof Hbst as (Hl & Hr & Hlv & Hrv).
    cbn [values]. rewrite other_keys_app. cbn [other_keys filter]. fold (other_keys cmp tv' (values r)).
    rewrite Forall_forall in Hlv, Hrv.
    destruct (Z.ltb_spec (key cmp tv' v) 0) as [Hlt|Hge].
    { cbn [fst]. rewrite values_delete_unwind. cbn [values].
      rewrite (IHl tl' tr' th' tv' eq_refl eq_refl Hl).
      destruct (Z.eqb_spec (key cmp tv' v) 0); [lia|]. cbn [negb].
      rewrite (other_keys_all tv' (values r)); [reflexivity|].
      rewrite Forall_forall. intros w Hw He.
      pose proof (key_equiv_gt cmp Hcmp tv' w v He (Hrv w Hw)). lia. }
    destruct (Z.gtb_spec (key cmp tv' v) 0) as [Hgt|Hle].
    { cbn [fst]. rewrite values_delete_unwind. cbn [values].
      rewrite (IHr tl' tr' th' tv' eq_refl eq_refl Hr).
      destruct (Z.eqb_spec (key cmp tv' v) 0); [lia|]. cbn [negb].
      rewrite (other_keys_all tv' (values l)); [reflexivity|].
      rewrite Forall_forall. intros w Hw He.
      pose proof (key_equiv_lt cmp Hcmp tv' w v He (Hlv w Hw)). lia. }
    assert (He : key cmp tv' v = 0) by lia.
    destruct (Z.eqb_spec (key cmp tv' v) 0); [|contradiction]. cbn [negb].
    assert (Hkeep_l : other_keys cmp tv' (values l) = values l).
    { apply other_keys_all. rewrite Forall_forall. intros w Hw Ew.
      pose proof (key_equiv_lt cmp Hcmp tv' w v Ew (Hlv w Hw)). lia. }
    assert (Hkeep_r : other_keys cmp tv' (values r) = values r).
    { apply other_keys_all. rewrite Forall_forall. intros w Hw Ew.
      pose proof (key_equiv_gt cmp Hcmp tv' w v Ew (Hrv w Hw)). lia. }
    rewrite Hkeep_l, Hkeep_r.
    destruct l as [|ll lr lh lv], r as [|rl rr rh rv]; cbn [fst].
    + reflexivity.
    + rewrite values_delete_unwind. reflexivity.
    + rewrite values_delete_unwind. cbn [values]. rewrite app_nil_r. reflexivity.
    + destruct (minimum_node (Node rl rr rh rv)) as [|ml mr mh mv] eqn:Hmin.
      { exfalso. apply (minimum_node_not_null rl rr rh rv). exact Hmin. }
      cbn [fst]. rewrite values_delete_unwind.
      destruct (minimum_node_values rl rr rh rv ml mr mh mv Hmin) as (rest & Hvals & Hset).
      destruct (Hset v) as (Hvals1 & ml' & mr' & mh' & Hmin1).
      assert (Hsorted : StronglySorted (fun a b => key cmp a b < 0) (mv :: rest)).
      { rewrite <- Hvals. apply (bst_values_sorted cmp Hcmp). exact Hr. }
      inversion Hsorted as [|? ? Hsrest Hfrest]; subst.
      assert (Hvm : key cmp v mv < 0).
      { apply (key_flip_lt cmp Hcmp). apply Hrv. rewrite Hvals. left. reflexivity. }
      assert (Hvrest : Forall (fun w => key cmp v w < 0) rest).
      { eapply Forall_impl; [|exact Hfrest]. cbn beta. intros w Hw.
        apply (cmp_trans cmp Hcmp v mv w); assumption. }
      assert (Hbst1 : bst cmp (set_minimum_value (Node rl rr rh rv) v)).
      { apply sorted_values_bst. rewrite Hvals1. constructor; assumption. }
      specialize (IHm NULL NULL 0 v NULL NULL 0 v NULL NULL 0 v ml' mr' mh' v eq_refl Hmin1 Hbst1).
      change (values (Node (Node ll lr lh lv)
                  (fst (_avl_delete (set_minimum_value (Node rl rr rh rv) v)
                          (minimum_node (set_minimum_value (Node rl rr rh rv) v))
                          (Some cmp) hook)) h mv))
        with (values (Node ll lr lh lv) ++ mv ::
              values (fst (_avl_delete (set_minimum_value (Node rl rr rh rv) v)
                             (minimum_node (set_minimum_value (Node rl rr rh rv) v))
                             (Some cmp) hook))).
      rewrite IHm, Hvals1, Hvals. f_equal. f_equal.
      unfold other_keys. cbn [filter]. rewrite (key_refl cmp Hcmp v).
      rewrite Z.eqb_refl. cbn [negb].
      fold (other_keys cmp v rest). rewrite other_keys_all; [reflexivity|].
      eapply Forall_impl; [|exact Hvrest]. cbn beta. intros w Hw. lia.
  - intros. discriminate.
Qed.

Lemma _avl_delete_bst root target hook :
  bst cmp root -> bst cmp (fst (_avl_delete root target (Some cmp) hook)).
Proof.
  intros Hbst. destruct target as [|tl tr th tv].
  - destruct root; exact Hbst.
  - apply sorted_values_bst. rewrite _avl_delete_values by exact Hbst.
    apply other_keys_sorted. apply (bst_values_sorted cmp Hcmp). exact Hbst.
Qed.

(** Every reachable tree is a search tree that meets the AVL condition. *)
Lemma reachable_well_formed t :
  reachable cmp t -> cmp_node t = Some cmp /\ bst cmp (root t) /\ avl_inv (root t).
Proof.
  intros Hreach. destruct (reachable_inv cmp Hcmp t Hreach) as (Hc & Hinv).
  split; [exact Hc|]. split; [|exact Hinv]. clear Hc Hinv.
  induction Hreach as [t Hroot Hc|t v t' Hreach IH Hins|t target t' log Hreach IH Hdel].
  - rewrite Hroot. exact I.
  - destruct (reachable_inv cmp Hcmp t Hreach) as (Hc & _).
    unfold avl_insert, _avl_node_new in Hins. rewrite Hc in Hins.
    rewrite enter_avl_insert_installed in Hins. cbn [bind] in Hins.
    pose proof (_avl_insert_bst (root t) v IH) as Hbst'.
    destruct (_avl_insert (root t) (Node NULL NULL 1 v) cmp) eqn:E;
      inversion Hins; subst t'. exact Hbst'.
  - destruct (reachable_inv cmp Hcmp t Hreach) as (Hc & _).
    unfold avl_delete in Hdel. destruct target as [|tl tr th tv]; [inversion Hdel|].
    rewrite Hc in Hdel.
    pose proof (_avl_delete_bst (root t) (Node tl tr th tv) (free_node t) IH) as Hbst'.
    destruct (fst (_avl_delete (root t) (Node tl tr th tv) (Some cmp) (free_node t)))
      eqn:E; inversion Hdel; subst t'. exact Hbst'.
Qed.

End SearchTree.

(** ** C3, C4: what [avl_delete] reports *)

Section DeleteResult.

Context {V : Type}.
Variable cmp : @avl_cmp_node V.
Hypothesis Hcmp : total_order cmp.
Implicit Types root l r target : @avl_node V.

(** No payload equivalent to the probe: the descent falls off the tree,
    nothing is released and every unwind step finds its node in order. *)
Lemma _avl_delete_miss root tl tr th tv hook :
  avl_inv root ->
  (forall w, In w (values root) -> key cmp tv w <> 0) ->
  _avl_delete root (Node tl tr th tv) (Some cmp) hook = (root, []).
Proof.
  induction root as [|l IHl r IHr h v]; intros Hinv Hno; [reflexivity|].
  rewrite _avl_delete_equation_3. cbv zeta. rewrite (cmp_payload cmp Hcmp).
  pose proof Hinv as (Hl & Hr & _).
  assert (Hv : key cmp tv v <> 0).
  { apply Hno. cbn [values]. apply in_or_app. right. left. reflexivity. }
  destruct (Z.ltb_spec (key cmp tv v) 0).
  - rewrite IHl; [|assumption|].
    + cbn [fst snd]. rewrite delete_unwind_idle by exact Hinv. reflexivity.
    + intros w Hw. apply Hno. cbn [values]. apply in_or_app. left. exact Hw.
  - destruct (Z.gtb_spec (key cmp tv v) 0); [|lia].
    rewrite IHr; [|assumption|].
    + cbn [fst snd]. rewrite delete_unwind_idle by exact Hinv. reflexivity.
    + intros w Hw. apply Hno. cbn [values]. apply in_or_app. right. right. exact Hw.
Qed.

Lemma two_nodes_height root : avl_inv root -> (2 <= size root)%nat -> 2 <= height root.
Proof.
  destruct root as [|l r h v]; cbn [size]; [lia|].
  intros (Hl & Hr & Hb & Hh) Hs. cbn [height].
  destruct l as [|ll lr lh lv], r as [|rl rr rh rv]; cbn [size] in Hs; try lia.
  - pose proof (avl_inv_height_pos _ _ _ _ Hr). cbn [height] in *. lia.
  - pose proof (avl_inv_height_pos _ _ _ _ Hl). cbn [height] in *. lia.
  - pose proof (avl_inv_height_pos _ _ _ _ Hl). cbn [height] in *. lia.
Qed.

Lemma _avl_delete_keeps_root root target compare hook :
  avl_inv root -> (2 <= size root)%nat ->
  fst (_avl_delete root target compare hook) <> NULL.
Proof.
  intros Hinv Hs E.
  destruct (_avl_delete_inv root target compare hook Hinv) as (_ & Hh).
  rewrite E in Hh. cbn [height] in Hh.
  pose proof (two_nodes_height root Hinv Hs). lia.
Qed.

Lemma commit_root_same (t : @avl V) :
  avl_height t = height (root t) -> commit_root t (root t) = t.
Proof. destruct t as [rt ht nn dn fn cn]. cbn. intros ->. reflexivity. Qed.

Lemma avl_delete_reports_core (t : avl) tl tr th (tv : V) :
  cmp_node t = Some cmp -> avl_inv (root t) ->
  let target := Node tl tr th tv in
  avl_delete None target = (-1, None, []) /\
  avl_delete (Some t) NULL = (-1, Some t, []) /\
  (root t = NULL -> avl_delete (Some t) target = (-1, Some t, [])) /\
  ((2 <= size (root t))%nat -> fst (fst (avl_delete (Some t) target)) = 0) /\
  ((2 <= size (root t))%nat -> bst cmp (root t) ->
   exists t' log,
     avl_delete (Some t) target = (0, Some t', log) /\
     values (root t') = other_keys cmp tv (values (root t)) /\
     avl_inv (root t') /\ bst cmp (root t')) /\
  (root t <> NULL ->
   (forall n, In n (nodes (root t)) -> cmp target n <> 0) ->
   avl_delete (Some t) target = (0, Some (commit_root t (root t)), [])).
Proof.
  intros Hc Hinv. cbv zeta.
  split; [reflexivity|]. split; [reflexivity|]. split; [|split; [|split]].
  - intros E. unfold avl_delete. rewrite E. reflexivity.
  - intros Hs. unfold avl_delete.
    pose proof (_avl_delete_keeps_root (root t) (Node tl tr th tv) (cmp_node t)
                  (free_node t) Hinv Hs) as Hnn.
    destruct (fst (_avl_delete (root t) (Node tl tr th tv) (cmp_node t) (free_node t)));
      [congruence|reflexivity].
  - intros Hs Hbst. unfold avl_delete. rewrite Hc.
    pose proof (_avl_delete_keeps_root (root t) (Node tl tr th tv) (Some cmp)
                  (free_node t) Hinv Hs) as Hnn.
    pose proof (_avl_delete_values cmp Hcmp (root t) tl tr th tv (free_node t) Hbst) as Hv.
    pose proof (_avl_delete_bst cmp Hcmp (root t) (Node tl tr th tv) (free_node t) Hbst) as Hb.
    destruct (_avl_delete_inv (root t) (Node tl tr th tv) (Some cmp) (free_node t) Hinv)
      as (Hi & _).
    destruct (fst (_avl_delete (root t) (Node tl tr th tv) (Some cmp) (free_node t)))
      as [|dl dr dh dv] eqn:E; [congruence|].
    eexists. eexists. split; [reflexivity|]. cbn [root commit_root].
    split; [exact Hv|]. split; [exact Hi|exact Hb].
  - intros Hroot Hno. unfold avl_delete. rewrite Hc.
    rewrite _avl_delete_miss; [|exact Hinv|].
    + cbn [fst snd]. destruct (root t); [congruence|reflexivity].
    + intros w Hw He. destruct (values_nodes _ _ Hw) as (l & r & h & Hn).
      apply (Hno _ Hn). rewrite (cmp_payload cmp Hcmp). exact He.
Qed.

(** C3, as the code has it.  With a comparator installed (a pure total
    order) and the AVL condition on the tree: [avl_delete] returns -1 when
    the tree pointer is null, when the target is null and when the tree is
    empty; on a tree of two or more nodes it returns 0, whether or not the
    key is present, and on a search tree the new tree holds, in order,
    exactly the payloads whose key differs from the target's and is again
    a search tree meeting the AVL condition; and when no node of a
    non-empty tree has the target's key it returns 0, releases nothing,
    leaves the root and all nodes as they were and stores the root's
    height in the cached tree height, so that the whole tree struct is
    unchanged when that field was in step with the root. *)
Theorem avl_delete_reports (t : avl) tl tr th (tv : V) :
  cmp_node t = Some cmp -> avl_inv (root t) ->
  let target := Node tl tr th tv in
  avl_delete None target = (-1, None, []) /\
  avl_delete (Some t) NULL = (-1, Some t, []) /\
  (root t = NULL -> avl_delete (Some t) target = (-1, Some t, [])) /\
  ((2 <= size (root t))%nat -> fst (fst (avl_delete (Some t) target)) = 0) /\
  ((2 <= size (root t))%nat -> bst cmp (root t) ->
   exists t' log,
     avl_delete (Some t) target = (0, Some t', log) /\
     values (root t') = other_keys cmp tv (values (root t)) /\
     avl_inv (root t') /\ bst cmp (root t')) /\
  (root t <> NULL ->
   (forall n, In n (nodes (root t)) -> cmp target n <> 0) ->
   avl_delete (Some t) target = (0, Some (commit_root t (root t)), []) /\
   root (commit_root t (root t)) = root t /\
   avl_height (commit_root t (root t)) = height (root t) /\
   (avl_height t = height (root t) -> avl_delete (Some t) target = (0, Some t, []))).
Proof.
  intros Hc Hinv. cbv zeta.
  destruct (avl_delete_reports_core t tl tr th tv Hc Hinv) as (H1 & H2 & H3 & H4 & H5 & H6).
  split; [exact H1|]. split; [exact H2|]. split; [exact H3|]. split; [exact H4|].
  split; [exact H5|]. intros Hroot Hno. specialize (H6 Hroot Hno).
  split; [exact H6|]. split; [reflexivity|]. split; [reflexivity|].
  intros Hh. rewrite H6, (commit_root_same t Hh). reflexivity.
Qed.

(** The removal of the only node: [_avl_delete] releases it and returns
    NULL, which [avl_delete] takes for a failure, leaving the root field
    pointing at the released node. *)
Lemma avl_delete_only_node (t : avl) h (v : V) tl tr th tv :
  cmp_node t = Some cmp -> root t = Node NULL NULL h v -> key cmp tv v = 0 ->
  avl_delete (Some t) (Node tl tr th tv)
  = (-1, Some t, [Released (free_node t) v]).
Proof.
  intros Hc Hroot Hk. unfold avl_delete. rewrite Hc, Hroot.
  rewrite _avl_delete_equation_3. cbv zeta. rewrite (cmp_payload cmp Hcmp), Hk.
  reflexivity.
Qed.

End DeleteResult.

(** ** Concrete facts about the demonstration comparator and trees *)

Lemma demo_tree_bst : bst compare (root demo_tree).
Proof. cbn. repeat (split || constructor). Qed.

Lemma demo_tree_avl_inv : avl_inv (root demo_tree).
Proof. cbn. repeat (split || constructor); vm_compute; congruence. Qed.

Lemma one_tree_reachable : reachable compare one_tree.
Proof.
  apply reach_insert with (t := empty_tree) (v := 10).
  - apply reach_empty; reflexivity.
  - reflexivity.
Qed.

(** The demonstration program's run: ten insertions, then a deletion. *)
Lemma demo_tree_reachable : reachable compare demo_tree.
Proof.
  apply reach_insert with (t := tree_of [10; 20; 30; 40; 50; 25; 49; 16; 26]) (v := 32);
    [|reflexivity].
  apply reach_insert with (t := tree_of [10; 20; 30; 40; 50; 25; 49; 16]) (v := 26);
    [|reflexivity].
  apply reach_insert with (t := tree_of [10; 20; 30; 40; 50; 25; 49]) (v := 16);
    [|reflexivity].
  apply reach_insert with (t := tree_of [10; 20; 30; 40; 50; 25]) (v := 49); [|reflexivity].
  apply reach_insert with (t := tree_of [10; 20; 30; 40; 50]) (v := 25); [|reflexivity].
  apply reach_insert with (t := tree_of [10; 20; 30; 40]) (v := 50); [|reflexivity].
  apply reach_insert with (t := tree_of [10; 20; 30]) (v := 40); [|reflexivity].
  apply reach_insert with (t := tree_of [10; 20]) (v := 30); [|reflexivity].
  apply reach_insert with (t := tree_of [10]) (v := 20); [|reflexivity].
  exact one_tree_reachable.
Qed.

Lemma demo_tree_less_16_reachable : reachable compare demo_tree_less_16.
Proof.
  apply reach_delete with (t := demo_tree) (target := _avl_node_new 16)
                          (log := [Released false 16]); [|reflexivity].
  exact demo_tree_reachable.
Qed.

Lemma reachable_avl_invariant_witness :
  reachable compare demo_tree_less_16 /\
  In (root demo_tree_less_16) (nodes (root demo_tree_less_16)) /\
  node_ok (root demo_tree_less_16).
Proof.
  split; [exact demo_tree_less_16_reachable|]. split; [left; reflexivity|].
  apply (reachable_avl_invariant compare compare_total_order demo_tree_less_16
           demo_tree_less_16_reachable).
  left. reflexivity.
Defined.

Lemma forward_reverse_walks_witness :
  bst compare (root demo_tree) /\
  payloads (forward_order (root demo_tree) (Some record_visit) [])
  = [10; 16; 20; 25; 26; 30; 32; 40; 49; 50] /\
  StronglySorted (fun a b => compare a b <= 0)
    (forward_order (root demo_tree) (Some record_visit) []) /\
  reverse_order (root demo_tree) (Some record_visit) []
  = rev (forward_order (root demo_tree) (Some record_visit) []).
Proof.
  split; [exact demo_tree_bst|]. split; [reflexivity|].
  pose proof (forward_reverse_walks compare compare_total_order (root demo_tree)
                demo_tree_bst) as (_ & Hs & Hr & _).
  split; [exact Hs|exact Hr].
Defined.

Lemma left_tree_bst : bst compare (root left_tree).
Proof. cbn. repeat (split || constructor). Qed.

Lemma left_tree_avl_inv : avl_inv (root left_tree).
Proof. cbn. repeat (split || constructor); vm_compute; congruence. Qed.

(** Duplication through a hook that may copy the payload. *)

Section DuplicateHook.

Context {V : Type}.
Variable cmp : @avl_cmp_node V.
Hypothesis Hcmp : total_order cmp.
Variable t : @avl V.
Hypothesis Hc : cmp_node t = Some cmp.
Hypothesis Hcopy : forall l r h v,
  exists v', avl_node_dup (Some t) (Node l r h v) = _avl_node_new v' /\ key cmp v' v = 0.

Lemma dup_tree_fold_copy old acc :
  dup_tree (Some t) acc old
  = Returns (fold_left (fun a n => _avl_insert a (avl_node_dup (Some t) n) cmp)
               (inorder old) acc).
Proof.
  revert acc. induction old as [|l IHl r IHr h v]; intros acc; [reflexivity|].
  cbn [dup_tree inorder]. rewrite fold_left_app. cbn [fold_left].
  replace (match l with NULL => Returns acc | Node _ _ _ _ => dup_tree (Some t) acc l end)
    with (dup_tree (Some t) acc l) by (destruct l; reflexivity).
  rewrite IHl. cbn [bind]. destruct (Hcopy l r h v) as (v' & -> & _).
  unfold _avl_node_new. rewrite Hc, enter_avl_insert_installed. cbn [bind].
  destruct r as [|rl rr rh rv]; [reflexivity|]. apply IHr.
Qed.

Lemma fold_dup_copies (ns : list (@avl_node V)) acc :
  Forall (fun n => n <> NULL) ns ->
  fold_left (fun a n => _avl_insert a (avl_node_dup (Some t) n) cmp) ns acc
  = fold_left (fun a k => _avl_insert a (Node NULL NULL 1 k) cmp)
      (payloads (map (avl_node_dup (Some t)) ns)) acc /\
  Forall2 (fun a b => key cmp a b = 0)
    (payloads (map (avl_node_dup (Some t)) ns)) (payloads ns).
Proof.
  revert acc. induction ns as [|n ns IH]; intros acc Hnn; [split; [reflexivity|constructor]|].
  inversion Hnn as [|? ? Hn Hnn']; subst. destruct n as [|l r h v]; [congruence|].
  cbn [map fold_left]. destruct (Hcopy l r h v) as (v' & E & He). rewrite E.
  change (payloads (_avl_node_new v' :: map (avl_node_dup (Some t)) ns))
    with (v' :: payloads (map (avl_node_dup (Some t)) ns)).
  change (payloads (Node l r h v :: ns)) with (v :: payloads ns).
  cbn [fold_left]. destruct (IH (_avl_insert acc (_avl_node_new v') cmp) Hnn') as (IH1 & IH2).
  split; [exact IH1|constructor; assumption].
Qed.

Lemma equivalent_below (a a' : V) (l l' : list V) :
  key cmp a' a = 0 -> Forall2 (fun x y => key cmp x y = 0) l' l ->
  Forall (fun b => key cmp a b < 0) l -> Forall (fun b => key cmp a' b < 0) l'.
Proof.
  intros Ha. induction 1 as [|b' b l' l Hb _ IH]; intros Hall; [constructor|].
  inversion Hall as [|? ? Hab Hall']; subst. constructor; [|apply IH; exact Hall'].
  pose proof (key_equiv_lt cmp Hcmp a' a b Ha Hab) as H1.
  apply (key_flip_lt cmp Hcmp) in H1.
  pose proof (key_equiv_gt cmp Hcmp b' b a' Hb H1) as H2.
  apply (key_flip_lt cmp Hcmp). exact H2.
Qed.

Lemma equivalent_sorted (l l' : list V) :
  Forall2 (fun x y => key cmp x y = 0) l' l ->
  StronglySorted (fun a b => key cmp a b < 0) l ->
  StronglySorted (fun a b => key cmp a b < 0) l'.
Proof.
  induction 1 as [|a' a l' l Ha Hl IH]; intros Hs; [constructor|].
  inversion Hs as [|? ? Hs' Hall]; subst. constructor; [apply IH; exact Hs'|].
  apply (equivalent_below a a' l l' Ha Hl Hall).
Qed.

Lemma avl_dup_copy_sound :
  bst cmp (root t) ->
  exists t',
    avl_dup (Some t) = Returns (Some t') /\
    Forall2 (fun a b => key cmp a b = 0)
      (payloads (forward_order (root t') (Some record_visit) []))
      (payloads (forward_order (root t) (Some record_visit) [])) /\
    (forall n, In n (nodes (root t')) -> node_ok n) /\
    root t' = fold_left (fun new_root n => _avl_insert new_root (avl_node_dup (Some t) n) cmp)
                (forward_order (root t) (Some record_visit) []) NULL /\
    new_node t' = new_node t /\ dup_node t' = dup_node t /\
    free_node t' = free_node t /\ cmp_node t' = cmp_node t.
Proof.
  intros Hbst. unfold avl_dup. rewrite dup_tree_fold_copy. cbn [bind].
  eexists. split; [reflexivity|]. cbn [root new_node dup_node free_node cmp_node].
  rewrite !forward_order_record, !payloads_inorder.
  destruct (fold_dup_copies (inorder (root t)) NULL (inorder_not_null (root t)))
    as (Hfold & Heq).
  rewrite Hfold. rewrite payloads_inorder in Heq.
  destruct (fold_insert_ascending cmp Hcmp
              (payloads (map (avl_node_dup (Some t)) (inorder (root t)))) NULL I)
    as (Hi & Hv).
  { cbn [values app]. apply (equivalent_sorted _ _ Heq).
    apply (bst_values_sorted cmp Hcmp). exact Hbst. }
  cbv zeta in Hi, Hv. cbn [values app] in Hv. rewrite Hv.
  split; [exact Heq|]. split; [|repeat split; reflexivity].
  apply avl_inv_nodes in Hi. rewrite Forall_forall in Hi. exact Hi.
Qed.

End DuplicateHook.

(** C6.  For a tree with a comparator installed (a pure total order) and
    the search-tree ordering, whose duplicate hook is unset or makes a
    fresh node holding a copy of the payload (a payload with the same
    key), [avl_dup] returns a new tree with the same hooks whose
    forward-order key sequence is that of the source (the very same
    payloads when the hook is unset) and whose nodes all meet the AVL
    condition; its root is the result of inserting, with [_avl_insert],
    the duplicate of each source node in forward order into an empty tree.
    The shape may differ from the source's: it does for the two-node tree
    leaning left. *)
Theorem avl_dup_fidelity :
  (forall (V : Type) (cmp : @avl_cmp_node V) (t : @avl V),
     total_order cmp -> cmp_node t = Some cmp ->
     (forall l r h v,
        exists v', avl_node_dup (Some t) (Node l r h v) = _avl_node_new v' /\
                   key cmp v' v = 0) ->
     bst cmp (root t) -> avl_inv (root t) ->
     exists t',
       avl_dup (Some t) = Returns (Some t') /\
       Forall2 (fun a b => key cmp a b = 0)
         (payloads (forward_order (root t') (Some record_visit) []))
         (payloads (forward_order (root t) (Some record_visit) [])) /\
       (dup_node t = None ->
        payloads (forward_order (root t') (Some record_visit) [])
        = payloads (forward_order (root t) (Some record_visit) [])) /\
       (forall n, In n (nodes (root t')) -> node_ok n) /\
       root t' = fold_left
                   (fun new_root n => _avl_insert new_root (avl_node_dup (Some t) n) cmp)
                   (forward_order (root t) (Some record_visit) []) NULL /\
       new_node t' = new_node t /\ dup_node t' = dup_node t /\
       free_node t' = free_node t /\ cmp_node t' = cmp_node t) /\
  (bst compare (root left_tree) /\ avl_inv (root left_tree) /\
   avl_dup (Some left_tree) = Returns (Some left_tree_dup) /\
   root left_tree_dup <> root left_tree).
Proof.
  split.
  - intros V cmp t Hcmp Hc Hcopy Hbst _.
    destruct (avl_dup_copy_sound cmp Hcmp t Hc Hcopy Hbst)
      as (t' & Hd & Heq & Hok & Hroot & Hhooks).
    exists t'. split; [exact Hd|]. split; [exact Heq|].
    split; [|split; [exact Hok|split; [exact Hroot|exact Hhooks]]].
    intros Hnone.
    assert (Hdup : forall l r h v, avl_node_dup (Some t) (Node l r h v) = _avl_node_new v).
    { intros l r h v. unfold avl_node_dup. rewrite Hnone. reflexivity. }
    destruct (avl_dup_sound cmp Hcmp t Hc Hdup Hbst) as (t2 & Hd2 & Hv2 & _).
    rewrite Hd in Hd2. injection Hd2 as <-. exact Hv2.
  - split; [exact left_tree_bst|]. split; [exact left_tree_avl_inv|].
    split; [reflexivity|discriminate].
Qed.

Lemma avl_dup_fidelity_witness :
  total_order compare /\ cmp_node demo_tree = Some compare /\
  bst compare (root demo_tree) /\ avl_inv (root demo_tree) /\
  exists t',
    avl_dup (Some demo_tree) = Returns (Some t') /\
    payloads (forward_order (root t') (Some record_visit) [])
    = payloads (forward_order (root demo_tree) (Some record_visit) []).
Proof.
  split; [exact compare_total_order|]. split; [reflexivity|].
  split; [exact demo_tree_bst|]. split; [exact demo_tree_avl_inv|].
  destruct (proj1 avl_dup_fidelity Z compare demo_tree compare_total_order eq_refl
              (fun l r h v =>
                 ex_intro _ v (conj eq_refl (key_refl compare compare_total_order v)))
              demo_tree_bst demo_tree_avl_inv)
    as (t' & Hdup & _ & Hkeys & _).
  exists t'. split; [exact Hdup|exact (Hkeys eq_refl)].
Defined.

(** ** C7: the rebalancing rule of deletion *)

Section DeleteRule.

Context {V : Type}.
Implicit Types root l r target : @avl_node V.

(** C7.  Whatever the comparator, [_avl_delete] on a node returns the
    unwind step applied to the node the removal step leaves there: the
    node with its left or right subtree replaced by the recursive result,
    the only child in place of a matched node, or the matched node with
    the successor's payload and the right subtree less the successor (and
    NULL for a matched leaf).  The unwind step takes no comparator; when the balance factor of its node
    exceeds 1 in absolute value it picks the rotation by the balance factor
    of the higher child: [>= 0] straight and [< 0] double on the left,
    [<= 0] straight and [> 0] double on the right. *)
Theorem delete_rebalance_rule l r h (v : V) :
  let root := Node l r (1 + max (height l) (height r)) v in
  let balance := avl_get_balance root in
  (balance > 1 -> avl_get_balance l >= 0 ->
   delete_unwind (Node l r h v) = avl_rotate_right root) /\
  (balance > 1 -> avl_get_balance l < 0 ->
   delete_unwind (Node l r h v)
   = avl_rotate_right (Node (avl_rotate_left l) r (1 + max (height l) (height r)) v)) /\
  (balance < -1 -> avl_get_balance r <= 0 ->
   delete_unwind (Node l r h v) = avl_rotate_left root) /\
  (balance < -1 -> avl_get_balance r > 0 ->
   delete_unwind (Node l r h v)
   = avl_rotate_left (Node l (avl_rotate_right r) (1 + max (height l) (height r)) v)) /\
  (-1 <= balance <= 1 -> delete_unwind (Node l r h v) = root) /\
  (forall tl tr th tv (cmp : avl_cmp_node) hook,
     let target := Node tl tr th tv in
     let del := fun n tg => fst (_avl_delete n tg (Some cmp) hook) in
     let pos := cmp target (Node l r h v) in
     (pos < 0 ->
      del (Node l r h v) target = delete_unwind (Node (del l target) r h v)) /\
     (pos > 0 ->
      del (Node l r h v) target = delete_unwind (Node l (del r target) h v)) /\
     (pos = 0 -> l = NULL -> r = NULL -> del (Node l r h v) target = NULL) /\
     (pos = 0 -> l <> NULL -> r = NULL ->
      del (Node l r h v) target = delete_unwind l) /\
     (pos = 0 -> l = NULL -> r <> NULL ->
      del (Node l r h v) target = delete_unwind r) /\
     (pos = 0 -> l <> NULL -> r <> NULL ->
      exists ml mr mh mv,
        minimum_node r = Node ml mr mh mv /\
        del (Node l r h v) target
        = delete_unwind
            (Node l (del (set_minimum_value r v) (minimum_node (set_minimum_value r v)))
               h mv))).
Proof.
  cbv zeta. cbn [avl_get_balance height].
  repeat split.
  - intros Hb Hc. unfold delete_unwind. cbn [avl_get_balance height].
    destruct (Z.gtb_spec (height l - height r) 1); [|lia].
    destruct (Z.geb_spec (avl_get_balance l) 0); [reflexivity|lia].
  - intros Hb Hc. unfold delete_unwind. cbn [avl_get_balance height].
    destruct (Z.gtb_spec (height l - height r) 1); [|lia].
    destruct (Z.geb_spec (avl_get_balance l) 0); [lia|].
    destruct (Z.ltb_spec (avl_get_balance l) 0); [reflexivity|lia].
  - intros Hb Hc. unfold delete_unwind. cbn [avl_get_balance height].
    destruct (Z.gtb_spec (height l - height r) 1); [lia|].
    destruct (Z.ltb_spec (height l - height r) (-1)); [|lia].
    destruct (Z.leb_spec (avl_get_balance r) 0); [reflexivity|lia].
  - intros Hb Hc. unfold delete_unwind. cbn [avl_get_balance height].
    destruct (Z.gtb_spec (height l - height r) 1); [lia|].
    destruct (Z.ltb_spec (height l - height r) (-1)); [|lia].
    destruct (Z.leb_spec (avl_get_balance r) 0); [lia|].
    destruct (Z.gtb_spec (avl_get_balance r) 0); [reflexivity|lia].
  - intros Hb. unfold delete_unwind. cbn [avl_get_balance height].
    destruct (Z.gtb_spec (height l - height r) 1); [lia|].
    destruct (Z.ltb_spec (height l - height r) (-1)); [lia|]. reflexivity.
  - intros Hpos. rewrite _avl_delete_equation_3. cbv zeta.
    destruct (Z.ltb_spec (cmp (Node tl tr th tv) (Node l r h v)) 0); [reflexivity|lia].
  - intros Hpos. rewrite _avl_delete_equation_3. cbv zeta.
    destruct (Z.ltb_spec (cmp (Node tl tr th tv) (Node l r h v)) 0); [lia|].
    destruct (Z.gtb_spec (cmp (Node tl tr th tv) (Node l r h v)) 0); [reflexivity|lia].
  - intros Hpos -> ->. rewrite _avl_delete_equation_3. cbv zeta. rewrite Hpos. reflexivity.
  - intros Hpos Hl ->. rewrite _avl_delete_equation_3. cbv zeta. rewrite Hpos.
    destruct l; [congruence|reflexivity].
  - intros Hpos -> Hr. rewrite _avl_delete_equation_3. cbv zeta. rewrite Hpos.
    destruct r; [congruence|reflexivity].
  - intros Hpos Hl Hr. rewrite _avl_delete_equation_3. cbv zeta. rewrite Hpos.
    destruct l as [|ll lr lh lv]; [congruence|].
    destruct r as [|rl rr rh rv]; [congruence|].
    pose proof (minimum_node_not_null rl rr rh rv) as Hmin.
    destruct (minimum_node (Node rl rr rh rv)) as [|ml mr mh mv]; [congruence|].
    exists ml, mr, mh, mv. split; reflexivity.
Qed.

End DeleteRule.

Lemma delete_rebalance_rule_witness :
  avl_get_balance (Node (Node (Node NULL NULL 1 5) NULL 2 10) NULL 3 20) > 1 /\
  avl_get_balance (Node (Node NULL NULL 1 5) (@NULL Z) 2 10) >= 0 /\
  delete_unwind (Node (Node (Node NULL NULL 1 5) NULL 2 10) NULL 0 20)
  = Node (Node NULL NULL 1 5) (Node NULL NULL 1 20) 2 10.
Proof.
  split; [reflexivity|]. split; [discriminate|].
  rewrite (proj1 (delete_rebalance_rule (Node (Node NULL NULL 1 5) NULL 2 10) NULL 0 20));
    [reflexivity|reflexivity|discriminate].
Defined.

(** ** C10: the public comparison helper *)

(** C10.  [avl_node_cmp] returns 0 when the tree is null, when either node
    is null and when no comparison hook is installed; otherwise it returns
    what the hook returns on the two nodes. *)
Theorem avl_node_cmp_result (V : Type) (tree : option (@avl V)) (a b : @avl_node V) :
  (tree = None \/ a = NULL \/ b = NULL \/
   (exists t, tree = Some t /\ cmp_node t = None) ->
   avl_node_cmp tree a b = 0) /\
  (forall t f, tree = Some t -> cmp_node t = Some f -> a <> NULL -> b <> NULL ->
   avl_node_cmp tree a b = f a b).
Proof.
  split.
  - intros [->|[->|[->|(t & -> & Hc)]]].
    + reflexivity.
    + destruct tree; reflexivity.
    + destruct tree, a; reflexivity.
    + unfold avl_node_cmp. rewrite Hc. destruct a, b; reflexivity.
  - intros t f -> Hc Ha Hb. unfold avl_node_cmp. rewrite Hc.
    destruct a; [congruence|]. destruct b; [congruence|]. reflexivity.
Qed.

Lemma avl_node_cmp_result_witness :
  avl_node_cmp (Some one_tree) (_avl_node_new 10) (_avl_node_new 20) = -1 /\
  avl_node_cmp (Some (mk_avl (@NULL Z) 0 None None false None))
    (_avl_node_new 10) (_avl_node_new 20) = 0.
Proof.
  split.
  - rewrite (proj2 (avl_node_cmp_result Z (Some one_tree) (_avl_node_new 10) (_avl_node_new 20))
               one_tree compare eq_refl eq_refl); [reflexivity|discriminate|discriminate].
  - apply (proj1 (avl_node_cmp_result Z _ _ _)).
    right. right. right. eexists. split; reflexivity.
Defined.


(** ** Concrete runs *)

(** The scenarios of the demonstration program: ten insertions, then
    [avl_delete] of key 16. *)
Example demo_forward_order :
  payloads (forward_order (root demo_tree) (Some record_visit) [])
  = [10; 16; 20; 25; 26; 30; 32; 40; 49; 50].
Proof. reflexivity. Qed.

Example demo_delete_16 :
  avl_delete (Some demo_tree) (_avl_node_new 16)
  = (0, Some demo_tree_less_16, [Released false 16]).
Proof. reflexivity. Qed.

Lemma demo_tree_less_16_avl_inv : avl_inv (root demo_tree_less_16).
Proof. cbn. repeat (split || constructor); vm_compute; congruence. Qed.

Lemma demo_tree_less_16_bst : bst compare (root demo_tree_less_16).
Proof. cbn. repeat (split || constructor). Qed.

(** Counterexample to C2 as stated: key 10 is in the tree, and inserting a
    fresh node with key 10 returns 0, not -1. *)
Lemma avl_insert_duplicate_counterexample :
  cmp_node one_tree = Some compare /\
  In (Node NULL NULL 1 10) (nodes (root one_tree)) /\
  compare (_avl_node_new 10) (Node NULL NULL 1 10) = 0 /\
  avl_insert (Some one_tree) (_avl_node_new 10) = Returns (0, Some one_tree) /\
  avl_insert (Some one_tree) (_avl_node_new 10) <> Returns (-1, Some one_tree).
Proof.
  split; [reflexivity|]. split; [left; reflexivity|]. split; [reflexivity|].
  split; [reflexivity|discriminate].
Qed.

Lemma avl_insert_duplicate_witness :
  cmp_node demo_tree = Some compare /\ bst compare (root demo_tree) /\
  avl_inv (root demo_tree) /\
  In (Node NULL NULL 1 16) (nodes (root demo_tree)) /\
  compare (Node NULL NULL 1 16) (Node NULL NULL 1 16) = 0 /\
  exists t',
    avl_insert (Some demo_tree) (Node NULL NULL 1 16) = Returns (0, Some t') /\
    root t' = root demo_tree.
Proof.
  assert (Hin : In (Node NULL NULL 1 16) (nodes (root demo_tree))).
  { cbn. right. right. right. left. reflexivity. }
  split; [reflexivity|]. split; [exact demo_tree_bst|].
  split; [exact demo_tree_avl_inv|]. split; [exact Hin|]. split; [reflexivity|].
  destruct (avl_insert_duplicate compare compare_total_order demo_tree NULL NULL 1 16
              eq_refl demo_tree_bst demo_tree_avl_inv
              (ex_intro _ (Node NULL NULL 1 16) (conj Hin eq_refl)))
    as (t' & Hins & Hroot & _).
  exists t'. split; [exact Hins|exact Hroot].
Defined.

(** Counterexample to C3 as stated: key 16 is no longer in the tree, and
    deleting it again returns 0, not -1. *)
Lemma avl_delete_absent_counterexample :
  (forall n, In n (nodes (root demo_tree_less_16)) -> compare (_avl_node_new 16) n <> 0) /\
  avl_delete (Some demo_tree_less_16) (_avl_node_new 16)
  = (0, Some demo_tree_less_16, []) /\
  fst (fst (avl_delete (Some demo_tree_less_16) (_avl_node_new 16))) <> -1.
Proof.
  split; [|split; [reflexivity|discriminate]].
  intros n Hn. cbn in Hn.
  repeat (destruct Hn as [<-|Hn]; [discriminate|]). contradiction.
Qed.

Lemma avl_delete_reports_witness :
  cmp_node demo_tree_less_16 = Some compare /\ avl_inv (root demo_tree_less_16) /\
  (2 <= size (root demo_tree_less_16))%nat /\
  fst (fst (avl_delete (Some demo_tree_less_16) (_avl_node_new 25))) = 0.
Proof.
  split; [reflexivity|]. split; [exact demo_tree_less_16_avl_inv|].
  assert (Hs : (2 <= size (root demo_tree_less_16))%nat) by (cbn; lia).
  split; [exact Hs|].
  apply (avl_delete_reports compare compare_total_order demo_tree_less_16 NULL NULL 1 25
           eq_refl demo_tree_less_16_avl_inv).
  exact Hs.
Defined.

(** C4 at the failing input: on the tree whose only node holds key 10,
    [avl_delete] of key 10 returns -1 and leaves the tree struct as it was,
    root field included, although the node has been released. *)
Theorem avl_delete_last_node_not_atomic :
  avl_delete (Some one_tree) (_avl_node_new 10)
  = (-1, Some one_tree, [Released false 10]).
Proof. reflexivity. Qed.

Lemma tree_order_by_level_witness :
  1 <= 4 /\
  hd_error (tree_order (root demo_tree) (Some record_visit) []) = Some (root demo_tree) /\
  payloads (tree_order (root demo_tree) (Some record_visit) [])
  = [30; 20; 49; 10; 25; 40; 16; 26; 32; 50].
Proof.
  split; [lia|]. split; [|reflexivity].
  apply (tree_order_by_level
           (Node (Node NULL (Node NULL NULL 1 16) 2 10) (Node NULL (Node NULL NULL 1 26) 2 25) 3 20)
           (Node (Node (Node NULL NULL 1 32) NULL 2 40) (Node NULL NULL 1 50) 3 49)
           4 30).
  lia.
Defined.

Lemma avl_find_result_witness :
  cmp_node demo_tree = Some compare /\ bst compare (root demo_tree) /\
  In (Node NULL NULL 1 16) (nodes (root demo_tree)) /\
  exists n, avl_find (Some demo_tree) (_avl_node_new 16) = Returns n /\
            compare (_avl_node_new 16) n = 0.
Proof.
  assert (Hin : In (Node NULL NULL 1 16) (nodes (root demo_tree))).
  { cbn. right. right. right. left. reflexivity. }
  split; [reflexivity|]. split; [exact demo_tree_bst|]. split; [exact Hin|].
  destruct (proj1 (avl_find_result compare compare_total_order demo_tree NULL NULL 1 16
                     eq_refl demo_tree_bst)
              (ex_intro _ (Node NULL NULL 1 16) (conj Hin eq_refl)))
    as (n & Hf & _ & Hk).
  exists n. split; [exact Hf|exact Hk].
Defined.

(** * Further properties of the engine *)

(** ** What a deletion releases *)

Section DeleteLog.

Context {V : Type}.
Variable cmp : @avl_cmp_node V.
Hypothesis Hcmp : total_order cmp.
Implicit Types root l r : @avl_node V.

Lemma same_keys_app tv (a b : list V) :
  same_keys cmp tv (a ++ b) = same_keys cmp tv a ++ same_keys cmp tv b.
Proof. apply filter_app. Qed.

Lemma same_keys_none tv (vs : list V) :
  Forall (fun w => key cmp tv w <> 0) vs -> same_keys cmp tv vs = [].
Proof.
  induction 1 as [|w vs Hw _ IH]; [reflexivity|]. cbn.
  destruct (Z.eqb_spec (key cmp tv w) 0); [contradiction|exact IH].
Qed.

Lemma same_keys_In tv (vs : list V) w :
  In w (same_keys cmp tv vs) -> In w vs /\ key cmp tv w = 0.
Proof.
  unfold same_keys. intros H. apply filter_In in H. destruct H as [Hin He].
  split; [exact Hin|]. apply Z.eqb_eq. exact He.
Qed.

(** In a strictly ascending sequence at most one payload has a given key. *)
Lemma same_keys_sorted tv (vs : list V) :
  StronglySorted (fun a b => key cmp a b < 0) vs ->
  (length (same_keys cmp tv vs) <= 1)%nat.
Proof.
  induction 1 as [|a vs Hs IH Hf]; [cbn; lia|].
  change (same_keys cmp tv (a :: vs))
    with (if key cmp tv a =? 0 then a :: same_keys cmp tv vs else same_keys cmp tv vs).
  destruct (Z.eqb_spec (key cmp tv a) 0) as [He|He]; [|exact IH].
  rewrite same_keys_none; [cbn; lia|].
  eapply Forall_impl; [|exact Hf]. cbn beta. intros w Hw Ew.
  apply (key_flip_eq cmp Hcmp) in He.
  pose proof (cmp_equiv cmp Hcmp a tv w He) as Hsg. rewrite Ew in Hsg.
  destruct (key cmp a w); cbn in Hsg; try discriminate; lia.
Qed.

Lemma _avl_delete_log root tl tr th tv hook :
  bst cmp root ->
  snd (_avl_delete root (Node tl tr th tv) (Some cmp) hook)
  = map (Released hook) (same_keys cmp tv (values root)).
Proof.
  intros Hbst.
  enough (Hall : forall root target compare hook tl tr th tv,
             compare = Some cmp -> target = Node tl tr th tv -> bst cmp root ->
             snd (_avl_delete root target compare hook)
             = map (Released hook) (same_keys cmp tv (values root)))
    by (apply (Hall root _ _ hook tl tr th tv eq_refl eq_refl Hbst)).
  clear root tl tr th tv hook Hbst. intros root target compare hook.
  apply (_avl_delete_elim
    (fun root target compare hook res =>
       forall tl tr th tv,
         compare = Some cmp -> target = Node tl tr th tv -> bst cmp root ->
         snd res = map (Released hook) (same_keys cmp tv (values root))));
    clear root target compare hook.
  - intros; reflexivity.
  - intros. discriminate.
  - intros l r h v tl tr th tv cmp' hook IHl IHr IHm tl' tr' th' tv' Ec Et Hbst.
    injection Ec as ->. injection Et as -> -> -> ->. cbv zeta in *.
    rewrite (cmp_payload cmp Hcmp).
    pose proof Hbst as (Hl & Hr & Hlv & Hrv).
    assert (Hvals : values (Node l r h v) = values l ++ v :: values r) by reflexivity.
    rewrite Hvals, same_keys_app. clear Hvals.
    change (same_keys cmp tv' (v :: values r))
      with (if key cmp tv' v =? 0 then v :: same_keys cmp tv' (values r)
            else same_keys cmp tv' (values r)).
    rewrite Forall_forall in Hlv, Hrv.
    destruct (Z.ltb_spec (key cmp tv' v) 0) as [Hlt|Hge].
    { cbn [snd]. rewrite (IHl tl' tr' th' tv' eq_refl eq_refl Hl).
      destruct (Z.eqb_spec (key cmp tv' v) 0); [lia|].
      rewrite (same_keys_none tv' (values r)); [rewrite app_nil_r; reflexivity|].
      rewrite Forall_forall. intros w Hw He.
      pose proof (key_equiv_gt cmp Hcmp tv' w v He (Hrv w Hw)). lia. }
    destruct (Z.gtb_spec (key cmp tv' v) 0) as [Hgt|Hle].
    { cbn [snd]. rewrite (IHr tl' tr' th' tv' eq_refl eq_refl Hr).
      destruct (Z.eqb_spec (key cmp tv' v) 0); [lia|].
      rewrite (same_keys_none tv' (values l)); [reflexivity|].
      rewrite Forall_forall. intros w Hw He.
      pose proof (key_equiv_lt cmp Hcmp tv' w v He (Hlv w Hw)). lia. }
    assert (He : key cmp tv' v = 0) by lia.
    destruct (Z.eqb_spec (key cmp tv' v) 0); [|contradiction].
    rewrite (same_keys_none tv' (values l)), (same_keys_none tv' (values r)).
    2: { rewrite Forall_forall. intros w Hw Ew.
         pose proof (key_equiv_gt cmp Hcmp tv' w v Ew (Hrv w Hw)). lia. }
    2: { rewrite Forall_forall. intros w Hw Ew.
         pose proof (key_equiv_lt cmp Hcmp tv' w v Ew (Hlv w Hw)). lia. }
    cbn [app map].
    destruct l as [|ll lr lh lv], r as [|rl rr rh rv]; cbn [snd]; try reflexivity.
    destruct (minimum_node (Node rl rr rh rv)) as [|ml mr mh mv] eqn:Hmin.
    { exfalso. apply (minimum_node_not_null rl rr rh rv). exact Hmin. }
    cbn [snd].
    destruct (minimum_node_values rl rr rh rv ml mr mh mv Hmin) as (rest & Hvals & Hset).
    destruct (Hset v) as (Hvals1 & ml' & mr' & mh' & Hmin1).
    assert (Hsorted : StronglySorted (fun a b => key cmp a b < 0) (mv :: rest)).
    { rewrite <- Hvals. apply (bst_values_sorted cmp Hcmp). exact Hr. }
    inversion Hsorted as [|? ? Hsrest Hfrest]; subst.
    assert (Hvm : key cmp v mv < 0).
    { apply (key_flip_lt cmp Hcmp). apply Hrv. rewrite Hvals. left. reflexivity. }
    assert (Hvrest : Forall (fun w => key cmp v w < 0) rest).
    { eapply Forall_impl; [|exact Hfrest]. cbn beta. intros w Hw.
      apply (cmp_trans cmp Hcmp v mv w); assumption. }
    assert (Hbst1 : bst cmp (set_minimum_value (Node rl rr rh rv) v)).
    { apply (sorted_values_bst cmp Hcmp). rewrite Hvals1. constructor; assumption. }
    specialize (IHm NULL NULL 0 v NULL NULL 0 v NULL NULL 0 v ml' mr' mh' v eq_refl Hmin1 Hbst1).
    rewrite IHm, Hvals1. unfold same_keys at 1. cbn [filter].
    rewrite (key_refl cmp Hcmp v), Z.eqb_refl. fold (same_keys cmp v rest).
    rewrite same_keys_none; [reflexivity|].
    eapply Forall_impl; [|exact Hvrest]. cbn beta. intros w Hw. lia.
  - intros. discriminate.
Qed.

End DeleteLog.

Section DeleteReleases.

Context {V : Type}.
Variable cmp : @avl_cmp_node V.
Hypothesis Hcmp : total_order cmp.

(** X1.  On a search tree, [avl_delete] hands to the release hook (or to
    [free]) exactly the node structs whose payload has the target's key:
    at most one, none when the key is absent, and never a payload with
    another key. *)
Theorem avl_delete_releases (t : avl) tl tr th (tv : V) :
  cmp_node t = Some cmp -> bst cmp (root t) ->
  let log := snd (avl_delete (Some t) (Node tl tr th tv)) in
  log = map (Released (free_node t)) (same_keys cmp tv (values (root t))) /\
  (length log <= 1)%nat /\
  Forall (fun r => by_hook r = free_node t /\ In (payload r) (values (root t)) /\
                   key cmp tv (payload r) = 0) log.
Proof.
  intros Hc Hbst. cbv zeta.
  assert (Hlog : snd (avl_delete (Some t) (Node tl tr th tv))
                 = map (Released (free_node t)) (same_keys cmp tv (values (root t)))).
  { unfold avl_delete. rewrite Hc.
    rewrite <- (_avl_delete_log cmp Hcmp (root t) tl tr th tv (free_node t) Hbst).
    destruct (fst (_avl_delete (root t) (Node tl tr th tv) (Some cmp) (free_node t)));
      reflexivity. }
  rewrite Hlog. split; [reflexivity|]. split.
  - rewrite length_map. apply (same_keys_sorted cmp Hcmp).
    apply (bst_values_sorted cmp Hcmp). exact Hbst.
  - rewrite Forall_forall. intros r Hr. apply in_map_iff in Hr.
    destruct Hr as (w & <- & Hw). apply same_keys_In in Hw. cbn. tauto.
Qed.

End DeleteReleases.

Lemma avl_delete_releases_witness :
  cmp_node demo_tree = Some compare /\ bst compare (root demo_tree) /\
  snd (avl_delete (Some demo_tree) (Node NULL NULL 1 16)) = [Released false 16].
Proof.
  split; [reflexivity|]. split; [exact demo_tree_bst|].
  rewrite (proj1 (avl_delete_releases compare compare_total_order demo_tree NULL NULL 1 16
                    eq_refl demo_tree_bst)).
  reflexivity.
Defined.

(** ** What an insertion adds *)

Section InsertValues.

Context {V : Type}.
Variable cmp : @avl_cmp_node V.
Hypothesis Hcmp : total_order cmp.
Implicit Types root l r item : @avl_node V.

Lemma keys_above k (vs : list V) :
  Forall (fun w => key cmp w k > 0) vs ->
  lower_keys cmp k vs = [] /\ same_keys cmp k vs = [] /\ upper_keys cmp k vs = vs.
Proof.
  induction 1 as [|w vs Hw _ (IH1 & IH2 & IH3)]; [repeat split|].
  unfold lower_keys, same_keys, upper_keys in *. cbn [filter].
  rewrite IH1, IH2, IH3.
  assert (key cmp k w < 0) by (apply (key_flip_lt cmp Hcmp); exact Hw).
  destruct (Z.ltb_spec (key cmp w k) 0); [lia|].
  destruct (Z.eqb_spec (key cmp k w) 0); [lia|].
  destruct (Z.gtb_spec (key cmp w k) 0); [|lia]. repeat split.
Qed.

Lemma keys_below k (vs : list V) :
  Forall (fun w => key cmp w k < 0) vs ->
  lower_keys cmp k vs = vs /\ same_keys cmp k vs = [] /\ upper_keys cmp k vs = [].
Proof.
  induction 1 as [|w vs Hw _ (IH1 & IH2 & IH3)]; [repeat split|].
  unfold lower_keys, same_keys, upper_keys in *. cbn [filter].
  rewrite IH1, IH2, IH3.
  assert (key cmp k w > 0) by (apply (key_flip_lt cmp Hcmp); exact Hw).
  destruct (Z.ltb_spec (key cmp w k) 0); [|lia].
  destruct (Z.eqb_spec (key cmp k w) 0); [lia|].
  destruct (Z.gtb_spec (key cmp w k) 0); [lia|]. repeat split.
Qed.

Lemma _avl_insert_values root k :
  bst cmp root ->
  values (_avl_insert root (Node NULL NULL 1 k) cmp)
  = lower_keys cmp k (values root) ++ kept_or_new cmp k (values root)
    ++ upper_keys cmp k (values root).
Proof.
  induction root as [|l IHl r IHr h v]; intros Hbst; [reflexivity|].
  cbn [_avl_insert]. rewrite (cmp_payload cmp Hcmp).
  destruct Hbst as (Hl & Hr & Hlv & Hrv).
  assert (Hlv' : forall w, In w (values l) -> key cmp w v < 0)
    by (rewrite Forall_forall in Hlv; exact Hlv).
  assert (Hrv' : forall w, In w (values r) -> key cmp w v > 0)
    by (rewrite Forall_forall in Hrv; exact Hrv).
  destruct (Z.ltb_spec (key cmp k v) 0) as [Hlt|Hge].
  { rewrite (values_insert_unwind cmp). cbn [values]. rewrite (IHl Hl).
    destruct (keys_above k (v :: values r)) as (E1 & E2 & E3).
    { constructor; [apply (key_flip_lt cmp Hcmp); exact Hlt|].
      rewrite Forall_forall. intros w Hw. apply (key_flip_lt cmp Hcmp).
      apply (cmp_trans cmp Hcmp k v w); [exact Hlt|].
      apply (key_flip_lt cmp Hcmp). apply Hrv'. exact Hw. }
    unfold kept_or_new, lower_keys, same_keys, upper_keys in *.
    rewrite !filter_app, E1, E2, E3, !app_nil_r, <- !app_assoc. reflexivity. }
  destruct (Z.gtb_spec (key cmp k v) 0) as [Hgt|Hle].
  { rewrite (values_insert_unwind cmp). cbn [values]. rewrite (IHr Hr).
    destruct (keys_below k (values l ++ [v])) as (E1 & E2 & E3).
    { apply Forall_app. split.
      - rewrite Forall_forall. intros w Hw.
        apply (cmp_trans cmp Hcmp w v k); [apply Hlv'; exact Hw|].
        apply (key_flip_lt cmp Hcmp). lia.
      - constructor; [|constructor]. apply (key_flip_lt cmp Hcmp). lia. }
    replace (values l ++ v :: values r) with ((values l ++ [v]) ++ values r)
      by (rewrite <- app_assoc; reflexivity).
    unfold kept_or_new, lower_keys, same_keys, upper_keys in *.
    rewrite !filter_app. rewrite !filter_app in E1, E2, E3.
    rewrite E1, E2, E3. cbn [app]. rewrite <- !app_assoc. reflexivity. }
  assert (He : key cmp k v = 0) by lia.
  destruct (keys_below k (values l)) as (E1 & E2 & E3).
  { rewrite Forall_forall. intros w Hw. apply (key_flip_lt cmp Hcmp).
    apply (key_equiv_gt cmp Hcmp k v w He). apply (key_flip_lt cmp Hcmp).
    apply Hlv'. exact Hw. }
  destruct (keys_above k (values r)) as (F1 & F2 & F3).
  { rewrite Forall_forall. intros w Hw. apply (key_flip_lt cmp Hcmp).
    apply (key_equiv_lt cmp Hcmp k v w He). apply (key_flip_lt cmp Hcmp).
    apply Hrv'. exact Hw. }
  cbn [values].
  unfold kept_or_new, lower_keys, same_keys, upper_keys in *.
  rewrite !filter_app. cbn [filter]. rewrite E1, E2, E3, F1, F2, F3.
  assert (Hv : key cmp v k = 0) by (apply (key_flip_eq cmp Hcmp); exact He).
  rewrite He, Hv. cbn. rewrite app_nil_r. reflexivity.
Qed.

(** A strictly ascending sequence without the key of [k] is its payloads
    below [k] followed by its payloads above [k]. *)
Lemma sorted_cut k (vs : list V) :
  StronglySorted (fun a b => key cmp a b < 0) vs ->
  same_keys cmp k vs = [] ->
  lower_keys cmp k vs ++ upper_keys cmp k vs = vs.
Proof.
  induction 1 as [|a vs Hs IH Hf]; intros Hnone; [reflexivity|].
  unfold same_keys in Hnone. cbn [filter] in Hnone.
  destruct (Z.eqb_spec (key cmp k a) 0) as [He|He]; [discriminate|].
  fold (same_keys cmp k vs) in Hnone. specialize (IH Hnone).
  assert (Hak : key cmp a k <> 0) by (intros E; apply He; apply (key_flip_eq cmp Hcmp); exact E).
  unfold lower_keys, upper_keys in *. cbn [filter].
  destruct (Z.ltb_spec (key cmp a k) 0) as [Hlt|Hge].
  - destruct (Z.gtb_spec (key cmp a k) 0); [lia|]. cbn [app]. rewrite IH. reflexivity.
  - destruct (Z.gtb_spec (key cmp a k) 0) as [Hgt|]; [|lia].
    destruct (keys_above k vs) as (E1 & _ & E3).
    { eapply Forall_impl; [|exact Hf]. cbn beta. intros w Hw.
      apply (key_flip_lt cmp Hcmp). apply (cmp_trans cmp Hcmp k a w); [|exact Hw].
      apply (key_flip_lt cmp Hcmp). lia. }
    unfold lower_keys, upper_keys in E1, E3. rewrite E1, E3. reflexivity.
Qed.

Lemma size_values root : size root = length (values root).
Proof.
  induction root as [|l IHl r IHr h v]; [reflexivity|].
  cbn [size values]. rewrite length_app. cbn [length]. lia.
Qed.

(** [_avl_insert] of a non-null item never yields NULL. *)
Lemma _avl_insert_not_null root il ir ih iv :
  _avl_insert root (Node il ir ih iv) cmp <> NULL.
Proof.
  assert (Hrot_r : forall a b c d, avl_rotate_right (Node a b c d) <> (@NULL V)).
  { intros [|? ? ? ?] b c d; discriminate. }
  assert (Hrot_l : forall a b c d, avl_rotate_left (Node a b c d) <> (@NULL V)).
  { intros a [|? ? ? ?] c d; discriminate. }
  assert (Hunwind : forall a b c d item, insert_unwind (Node a b c d) item cmp <> NULL).
  { intros a b c d item. unfold insert_unwind.
    repeat match goal with
    | |- context [if ?c then _ else _] => destruct c
    end; try apply Hrot_r; try apply Hrot_l; discriminate. }
  destruct root as [|l r h v]; [discriminate|]. cbn [_avl_insert].
  destruct (cmp (Node il ir ih iv) (Node l r h v) <? 0); [apply Hunwind|].
  destruct (cmp (Node il ir ih iv) (Node l r h v) >? 0); [apply Hunwind|discriminate].
Qed.

End InsertValues.

Section InsertLookup.

Context {V : Type}.
Variable cmp : @avl_cmp_node V.
Implicit Types root l r item : @avl_node V.

Lemma avl_insert_commits (t : avl) il ir ih (iv : V) :
  cmp_node t = Some cmp ->
  avl_insert (Some t) (Node il ir ih iv)
  = Returns (0, Some (commit_root t (_avl_insert (root t) (Node il ir ih iv) cmp))).
Proof.
  intros Hc. pose proof (_avl_insert_not_null cmp (root t) il ir ih iv) as Hnn.
  unfold avl_insert. rewrite Hc, enter_avl_insert_installed. cbn [bind].
  destruct (_avl_insert (root t) (Node il ir ih iv) cmp); [congruence|reflexivity].
Qed.

(** X2.  With a comparator installed (a pure total order), on a tree
    meeting the AVL condition, [avl_insert] of a fresh node never reports a
    failure, whether or not its key is already there: [_avl_insert] yields
    a non-null root meeting the AVL condition, and the call returns 0,
    stores that root and sets the cached tree height to its height.  The
    call returns -1 only for a null tree or a null item, leaving everything
    as it was. *)
Theorem avl_insert_never_fails (t : avl) (k : V) :
  total_order cmp -> cmp_node t = Some cmp -> avl_inv (root t) ->
  let item := _avl_node_new k in
  avl_insert (Some t) item
  = Returns (0, Some (commit_root t (_avl_insert (root t) item cmp))) /\
  avl_height (commit_root t (_avl_insert (root t) item cmp))
  = height (_avl_insert (root t) item cmp) /\
  _avl_insert (root t) item cmp <> NULL /\
  avl_inv (_avl_insert (root t) item cmp) /\
  avl_insert None item = Returns (-1, None) /\
  avl_insert (Some t) NULL = Returns (-1, Some t).
Proof.
  intros Hto Hc Hinv. cbv zeta. split; [apply avl_insert_commits; exact Hc|].
  split; [reflexivity|]. split; [apply _avl_insert_not_null|].
  split; [apply (_avl_insert_avl_inv cmp (cmp_payload cmp Hto) (root t) k Hinv)|].
  split; reflexivity.
Qed.

Hypothesis Hcmp : total_order cmp.

Lemma kept_or_new_same k (vs : list V) :
  exists w, In w (kept_or_new cmp k vs) /\ key cmp k w = 0.
Proof.
  unfold kept_or_new. destruct (same_keys cmp k vs) as [|w ws] eqn:E.
  - exists k. split; [left; reflexivity|apply (key_refl cmp Hcmp)].
  - exists w. split; [left; reflexivity|].
    apply (same_keys_In cmp k vs w). rewrite E. left. reflexivity.
Qed.

Lemma other_keys_lower k (vs : list V) :
  other_keys cmp k (lower_keys cmp k vs) = lower_keys cmp k vs.
Proof.
  apply (other_keys_all cmp). rewrite Forall_forall. intros w Hw E.
  unfold lower_keys in Hw. apply filter_In in Hw. destruct Hw as [_ Hw].
  apply Z.ltb_lt in Hw. apply (key_flip_eq cmp Hcmp) in E. lia.
Qed.

Lemma other_keys_upper k (vs : list V) :
  other_keys cmp k (upper_keys cmp k vs) = upper_keys cmp k vs.
Proof.
  apply (other_keys_all cmp). rewrite Forall_forall. intros w Hw E.
  unfold upper_keys in Hw. apply filter_In in Hw. destruct Hw as [_ Hw].
  rewrite Z.gtb_ltb in Hw. apply Z.ltb_lt in Hw. apply (key_flip_eq cmp Hcmp) in E. lia.
Qed.

Lemma _avl_insert_fresh_values (root : @avl_node V) (k : V) :
  bst cmp root -> same_keys cmp k (values root) = [] ->
  values (_avl_insert root (Node NULL NULL 1 k) cmp)
  = lower_keys cmp k (values root) ++ k :: upper_keys cmp k (values root) /\
  lower_keys cmp k (values root) ++ upper_keys cmp k (values root) = values root.
Proof.
  intros Hbst Hnone.
  pose proof (_avl_insert_values cmp Hcmp root k Hbst) as Hv.
  unfold kept_or_new in Hv. rewrite Hnone in Hv. cbn [app] in Hv.
  split; [exact Hv|].
  apply (sorted_cut cmp Hcmp k (values root) (bst_values_sorted cmp Hcmp root Hbst) Hnone).
Qed.

(** X3.  On a search tree meeting the AVL condition that does not hold the
    key of [k], [avl_insert] of a fresh node with payload [k] returns 0 and
    yields a tree with one node more, whose forward-order payloads are the
    old ones with [k] put in at its place in the order; both invariants
    hold again. *)
Theorem avl_insert_adds_key (t : avl) (k : V) :
  cmp_node t = Some cmp -> bst cmp (root t) -> avl_inv (root t) ->
  same_keys cmp k (values (root t)) = [] ->
  exists t',
    avl_insert (Some t) (_avl_node_new k) = Returns (0, Some t') /\
    values (root t')
    = lower_keys cmp k (values (root t)) ++ k :: upper_keys cmp k (values (root t)) /\
    lower_keys cmp k (values (root t)) ++ upper_keys cmp k (values (root t))
    = values (root t) /\
    size (root t') = S (size (root t)) /\
    bst cmp (root t') /\ avl_inv (root t').
Proof.
  intros Hc Hbst Hinv Hnone.
  exists (commit_root t (_avl_insert (root t) (Node NULL NULL 1 k) cmp)).
  split; [apply (avl_insert_commits t NULL NULL 1 k Hc)|]. cbn [root commit_root].
  destruct (_avl_insert_fresh_values (root t) k Hbst Hnone) as (Hv & Hcut).
  split; [exact Hv|]. split; [exact Hcut|]. split.
  - rewrite !size_values, Hv. rewrite <- Hcut at 3.
    rewrite !length_app. cbn [length]. lia.
  - split; [apply (_avl_insert_bst cmp Hcmp); exact Hbst|].
    apply (_avl_insert_avl_inv cmp (cmp_payload cmp Hcmp) (root t) k Hinv).
Qed.

(** X4.  Insert, then look up: on a search tree meeting the AVL
    condition, after [avl_insert] of a
    fresh node with payload [k], [avl_find] with a probe holding [k]
    returns a node of the new tree whose key equals the key of [k],
    whether the key was new or already there. *)
Theorem avl_insert_then_find (t : avl) (k : V) pl pr ph :
  cmp_node t = Some cmp -> bst cmp (root t) -> avl_inv (root t) ->
  exists t' n,
    avl_insert (Some t) (_avl_node_new k) = Returns (0, Some t') /\
    avl_find (Some t') (Node pl pr ph k) = Returns n /\
    In n (nodes (root t')) /\ cmp (Node pl pr ph k) n = 0.
Proof.
  intros Hc Hbst _.
  pose proof (avl_insert_commits t NULL NULL 1 k Hc) as Hins.
  pose proof (_avl_insert_not_null cmp (root t) NULL NULL 1 k) as Hnn.
  pose proof (_avl_insert_bst cmp Hcmp (root t) k Hbst) as Hbst'.
  destruct (_avl_find_hit cmp Hcmp (_avl_insert (root t) (Node NULL NULL 1 k) cmp)
              pl pr ph k Hbst') as (fl & fr & fh & fw & Hf & Hin & Hk).
  { rewrite (_avl_insert_values cmp Hcmp (root t) k Hbst).
    destruct (kept_or_new_same k (values (root t))) as (w & Hw & He).
    exists w. split; [|exact He]. apply in_or_app. right. apply in_or_app. left. exact Hw. }
  exists (commit_root t (_avl_insert (root t) (Node NULL NULL 1 k) cmp)), (Node fl fr fh fw).
  split; [exact Hins|]. cbn [root commit_root]. split; [|split; [exact Hin|]].
  - unfold avl_find, enter_avl_find. cbn [root cmp_node commit_root]. rewrite Hc.
    destruct (_avl_insert (root t) (Node NULL NULL 1 k) cmp) eqn:E; [congruence|].
    rewrite Hf. reflexivity.
  - rewrite (cmp_payload cmp Hcmp). exact Hk.
Qed.

(** X5.  Delete, then look up: on a search tree meeting the AVL condition,
    after an [avl_delete] that returned 0, [avl_find] in the new tree
    returns NULL for every probe whose payload, when [avl_find] reads it,
    has the key the deleted target had. *)
Theorem avl_delete_then_find (t t' : avl) tl tr th (tv : V) log :
  cmp_node t = Some cmp -> bst cmp (root t) -> avl_inv (root t) ->
  avl_delete (Some t) (Node tl tr th tv) = (0, Some t', log) ->
  forall pl pr ph pv, key cmp pv tv = 0 ->
    avl_find (Some t') (Node pl pr ph pv) = Returns NULL.
Proof.
  intros Hc Hbst _ Hdel pl pr ph pv Hp. unfold avl_delete in Hdel. rewrite Hc in Hdel.
  pose proof (_avl_delete_values cmp Hcmp (root t) tl tr th tv (free_node t) Hbst) as Hv.
  destruct (fst (_avl_delete (root t) (Node tl tr th tv) (Some cmp) (free_node t)))
    as [|dl dr dh dv] eqn:E; [discriminate|].
  injection Hdel as <- _. unfold avl_find, enter_avl_find.
  cbn [root cmp_node commit_root]. rewrite Hc. f_equal.
  apply (_avl_find_miss cmp Hcmp). intros w Hw He. rewrite Hv in Hw.
  unfold other_keys in Hw. apply filter_In in Hw. destruct Hw as [_ Hw].
  pose proof (cmp_equiv cmp Hcmp pv tv w Hp) as Hsg. rewrite He in Hsg.
  assert (Ht : key cmp tv w = 0)
    by (destruct (key cmp tv w); cbn in Hsg; try discriminate; reflexivity).
  rewrite Ht in Hw. discriminate.
Qed.

(** X6.  Insert, then delete: on a non-empty search tree meeting the AVL
    condition that does not hold the key of [k], inserting a fresh node
    with payload [k] and then deleting that key both return 0; the delete
    releases exactly the struct holding [k], and the tree has its former
    forward-order payloads and both invariants again. *)
Theorem avl_insert_delete_inverse (t : avl) (k : V) pl pr ph :
  cmp_node t = Some cmp -> bst cmp (root t) -> avl_inv (root t) ->
  root t <> NULL -> same_keys cmp k (values (root t)) = [] ->
  exists t1 t2,
    avl_insert (Some t) (_avl_node_new k) = Returns (0, Some t1) /\
    avl_delete (Some t1) (Node pl pr ph k) = (0, Some t2, [Released (free_node t) k]) /\
    values (root t2) = values (root t) /\
    bst cmp (root t2) /\ avl_inv (root t2).
Proof.
  intros Hc Hbst Hinv Hroot Hnone.
  pose proof (avl_insert_commits t NULL NULL 1 k Hc) as Hins.
  remember (commit_root t (_avl_insert (root t) (Node NULL NULL 1 k) cmp)) as t1 eqn:Et1.
  assert (Hroot1 : root t1 = _avl_insert (root t) (Node NULL NULL 1 k) cmp)
    by (subst t1; reflexivity).
  assert (Hc1 : cmp_node t1 = Some cmp) by (subst t1; exact Hc).
  assert (Hf1 : free_node t1 = free_node t) by (subst t1; reflexivity).
  destruct (_avl_insert_fresh_values (root t) k Hbst Hnone) as (Hv1 & Hcut).
  rewrite <- Hroot1 in Hv1.
  assert (Hbst1 : bst cmp (root t1))
    by (rewrite Hroot1; apply (_avl_insert_bst cmp Hcmp); exact Hbst).
  assert (Hinv1 : avl_inv (root t1))
    by (rewrite Hroot1;
        apply (_avl_insert_avl_inv cmp (cmp_payload cmp Hcmp) (root t) k Hinv)).
  assert (Hs : (2 <= size (root t1))%nat).
  { rewrite size_values, Hv1, length_app. cbn [length].
    assert (1 <= length (values (root t)))%nat
      by (destruct (root t) as [|l r h v]; [congruence|];
          cbn [values]; rewrite length_app; cbn [length]; lia).
    rewrite <- Hcut, length_app in H. lia. }
  pose proof (_avl_delete_values cmp Hcmp (root t1) pl pr ph k (free_node t1) Hbst1) as Hv.
  pose proof (_avl_delete_log cmp Hcmp (root t1) pl pr ph k (free_node t1) Hbst1) as Hlog.
  pose proof (_avl_delete_bst cmp Hcmp (root t1) (Node pl pr ph k) (free_node t1) Hbst1) as Hb.
  destruct (_avl_delete_inv (root t1) (Node pl pr ph k) (Some cmp) (free_node t1) Hinv1)
    as (Hi & _).
  pose proof (_avl_delete_keeps_root (root t1) (Node pl pr ph k) (Some cmp)
                (free_node t1) Hinv1 Hs) as Hnn.
  assert (Hsame : same_keys cmp k (values (root t1)) = [k]).
  { rewrite Hv1. rewrite (same_keys_app cmp).
    destruct (keys_below cmp Hcmp k (lower_keys cmp k (values (root t)))) as (_ & E & _).
    { rewrite Forall_forall. intros w Hw. unfold lower_keys in Hw.
      apply filter_In in Hw. destruct Hw as [_ Hw]. apply Z.ltb_lt. exact Hw. }
    destruct (keys_above cmp Hcmp k (upper_keys cmp k (values (root t)))) as (_ & F & _).
    { rewrite Forall_forall. intros w Hw. unfold upper_keys in Hw.
      apply filter_In in Hw. destruct Hw as [_ Hw].
      rewrite Z.gtb_ltb in Hw. apply Z.ltb_lt in Hw. lia. }
    rewrite E. unfold same_keys at 1. cbn [filter app].
    rewrite (key_refl cmp Hcmp k), Z.eqb_refl. fold (same_keys cmp k (upper_keys cmp k (values (root t)))).
    rewrite F. reflexivity. }
  assert (Hrest : other_keys cmp k (values (root t1)) = values (root t)).
  { rewrite Hv1, (other_keys_app cmp), other_keys_lower.
    unfold other_keys at 1. cbn [filter].
    rewrite (key_refl cmp Hcmp k), Z.eqb_refl. cbn [negb].
    fold (other_keys cmp k (upper_keys cmp k (values (root t)))).
    rewrite other_keys_upper. exact Hcut. }
  exists t1,
    (commit_root t1
       (fst (_avl_delete (root t1) (Node pl pr ph k) (Some cmp) (free_node t1)))).
  split; [exact Hins|]. split.
  - unfold avl_delete. rewrite Hc1, Hlog, Hsame, Hf1.
    destruct (fst (_avl_delete (root t1) (Node pl pr ph k) (Some cmp) (free_node t)))
      as [|dl dr dh dv] eqn:E; [rewrite Hf1 in Hnn; congruence|reflexivity].
  - cbn [root commit_root]. rewrite Hv, Hrest.
    split; [reflexivity|]. split; [exact Hb|exact Hi].
Qed.

End InsertLookup.

(** ** Height and size *)

Section HeightBound.

Context {V : Type}.
Implicit Types root l r : @avl_node V.

Lemma avl_inv_depth root : avl_inv root -> height root = Z.of_nat (depth root).
Proof.
  induction root as [|l IHl r IHr h v]; [reflexivity|].
  intros (Hl & Hr & Hb & Hh). cbn [height depth].
  rewrite Hh, (IHl Hl), (IHr Hr). lia.
Qed.

(** X7.  When the AVL condition holds, the cached height of a node is the
    number of nodes on the longest path below it, and that number is
    logarithmic in the size: a subtree of height [h] has at least
    [2^(h/2) - 1] nodes. *)
Theorem avl_height_logarithmic root :
  avl_inv root ->
  height root = Z.of_nat (depth root) /\
  (2 ^ (depth root / 2) <= size root + 1)%nat.
Proof.
  intros Hinv. split; [apply avl_inv_depth; exact Hinv|].
  induction root as [|l IHl r IHr h v]; [cbn; lia|].
  pose proof Hinv as (Hl & Hr & Hb & Hh).
  specialize (IHl Hl). specialize (IHr Hr).
  rewrite (avl_inv_depth l Hl), (avl_inv_depth r Hr) in Hb.
  cbn [depth size].
  destruct (Nat.max (depth l) (depth r)) as [|m] eqn:Hm.
  - cbn. lia.
  - assert (Hdl : (m / 2 <= depth l / 2)%nat) by (apply Nat.Div0.div_le_mono; lia).
    assert (Hdr : (m / 2 <= depth r / 2)%nat) by (apply Nat.Div0.div_le_mono; lia).
    pose proof (Nat.pow_le_mono_r 2 _ _ ltac:(lia) Hdl) as Pl.
    pose proof (Nat.pow_le_mono_r 2 _ _ ltac:(lia) Hdr) as Pr.
    replace (S (S m) / 2)%nat with (S (m / 2)).
    + rewrite Nat.pow_succ_r'. lia.
    + change (S (S m)) with (1 * 2 + m)%nat.
      rewrite Nat.div_add_l by lia. reflexivity.
Qed.

End HeightBound.

Lemma avl_height_logarithmic_witness :
  avl_inv (root demo_tree) /\
  height (root demo_tree) = 4 /\ depth (root demo_tree) = 4%nat /\
  (2 ^ (4 / 2) <= size (root demo_tree) + 1)%nat.
Proof.
  split; [exact demo_tree_avl_inv|].
  destruct (avl_height_logarithmic (root demo_tree) demo_tree_avl_inv) as (Hh & Hs).
  split; [reflexivity|]. split; [reflexivity|]. exact Hs.
Defined.

(** ** Destroying a tree *)

Section Destroy.

Context {V : Type}.
Variable cmp : @avl_cmp_node V.
Hypothesis Hcmp : total_order cmp.
Implicit Types root l r : @avl_node V.

(** One iteration of the loop of [_avl_destroy] on a search tree: the
    payload of the root is released and all the others stay. *)
Lemma _avl_delete_root l r h v hook :
  bst cmp (Node l r h v) ->
  values (fst (_avl_delete (Node l r h v) (Node l r h v) (Some cmp) hook))
  = values l ++ values r /\
  snd (_avl_delete (Node l r h v) (Node l r h v) (Some cmp) hook) = [Released hook v].
Proof.
  intros Hbst. pose proof Hbst as (_ & _ & Hlv & Hrv).
  assert (Hl : Forall (fun w => key cmp v w <> 0) (values l)).
  { eapply Forall_impl; [|exact Hlv]. cbn beta. intros w Hw E.
    apply (key_flip_eq cmp Hcmp) in E. lia. }
  assert (Hr : Forall (fun w => key cmp v w <> 0) (values r)).
  { eapply Forall_impl; [|exact Hrv]. cbn beta. intros w Hw E.
    apply (key_flip_eq cmp Hcmp) in E. lia. }
  split.
  - rewrite (_avl_delete_values cmp Hcmp _ l r h v hook Hbst).
    cbn [values]. rewrite (other_keys_app cmp). unfold other_keys at 2. cbn [filter].
    rewrite (key_refl cmp Hcmp v), Z.eqb_refl. cbn [negb].
    fold (other_keys cmp v (values r)).
    rewrite (other_keys_all cmp v _ Hl), (other_keys_all cmp v _ Hr). reflexivity.
  - rewrite (_avl_delete_log cmp Hcmp _ l r h v hook Hbst).
    cbn [values]. rewrite (same_keys_app cmp). unfold same_keys at 2. cbn [filter].
    rewrite (key_refl cmp Hcmp v), Z.eqb_refl.
    fold (same_keys cmp v (values r)).
    rewrite (same_keys_none cmp v _ Hl), (same_keys_none cmp v _ Hr). reflexivity.
Qed.

Lemma _avl_destroy_releases_all fuel root hook :
  bst cmp root -> (size root <= fuel)%nat ->
  exists log,
    _avl_destroy fuel root (Some cmp) hook = Some log /\
    Permutation (map payload log) (values root) /\
    Forall (fun e => by_hook e = hook) log.
Proof.
  revert root. induction fuel as [|fuel IH]; intros root Hbst Hs.
  - destruct root; [|cbn [size] in Hs; lia].
    exists []. repeat split; constructor.
  - destruct root as [|l r h v]; [exists []; repeat split; constructor|].
    cbn [_avl_destroy].
    destruct (_avl_delete_root l r h v hook Hbst) as (Hv & Hlog).
    pose proof (_avl_delete_bst cmp Hcmp (Node l r h v) (Node l r h v) hook Hbst) as Hb.
    destruct (IH _ Hb) as (log & Hd & Hp & Hf).
    { rewrite size_values, Hv, length_app, <- !size_values.
      cbn [size] in Hs. lia. }
    rewrite Hd, Hlog. exists (Released hook v :: log). split; [reflexivity|]. split.
    + cbn [map payload values]. rewrite <- Permutation_middle. constructor.
      rewrite Hp, Hv. reflexivity.
    + constructor; [reflexivity|exact Hf].
Qed.

(** X8.  On a search tree meeting the AVL condition, with its comparator
    installed, [avl_free] comes to
    an end after as many iterations of the destroy loop as the tree has
    nodes, and releases every payload of the tree exactly once, each the
    way the tree's release setting says.  On a null tree it does nothing. *)
Theorem avl_free_releases_all (t : avl) fuel :
  cmp_node t = Some cmp -> bst cmp (root t) -> avl_inv (root t) ->
  (size (root t) <= fuel)%nat ->
  (exists log,
     avl_free fuel (Some t) = Some log /\
     Permutation (map payload log) (values (root t)) /\
     length log = size (root t) /\
     Forall (fun e => by_hook e = free_node t) log) /\
  avl_free fuel (@None (@avl V)) = Some [].
Proof.
  intros Hc Hbst _ Hs. split; [|reflexivity].
  destruct (_avl_destroy_releases_all fuel (root t) (free_node t) Hbst Hs)
    as (log & Hd & Hp & Hf).
  exists log. unfold avl_free. rewrite Hc.
  assert (Hlen : length log = size (root t)).
  { rewrite size_values, <- (Permutation_length Hp), length_map. reflexivity. }
  destruct (root t) eqn:E.
  - destruct fuel; cbn in Hd; injection Hd as <-; repeat split; constructor.
  - rewrite Hd. repeat split; assumption.
Qed.

End Destroy.

Lemma avl_free_releases_all_witness :
  cmp_node demo_tree = Some compare /\ bst compare (root demo_tree) /\
  (size (root demo_tree) <= 10)%nat /\
  exists log, avl_free 10 (Some demo_tree) = Some log /\ length log = 10%nat.
Proof.
  assert (Hs : (size (root demo_tree) <= 10)%nat) by (apply Nat.leb_le; reflexivity).
  split; [reflexivity|]. split; [exact demo_tree_bst|]. split; [exact Hs|].
  destruct (proj1 (avl_free_releases_all compare compare_total_order demo_tree 10
                     eq_refl demo_tree_bst demo_tree_avl_inv Hs))
    as (log & Hf & _ & Hl & _).
  exists log. split; [exact Hf|exact Hl].
Defined.

(** X9.  Without a comparator the destroy loop makes no progress:
    [_avl_delete] returns its root untouched, so on a non-empty tree
    [avl_free] does not come to an end, however many iterations it is
    given, and releases nothing. *)
Theorem avl_free_without_comparator (V : Type) (t : @avl V) (fuel : nat) :
  cmp_node t = None -> root t <> NULL -> avl_free fuel (Some t) = None.
Proof.
  intros Hc Hroot. unfold avl_free. rewrite Hc.
  destruct (root t) as [|l r h v]; [congruence|]. clear Hroot.
  induction fuel as [|fuel IH]; [reflexivity|].
  cbn [_avl_destroy]. rewrite _avl_delete_equation_4. cbn [fst snd]. rewrite IH.
  reflexivity.
Qed.

Lemma avl_free_without_comparator_witness :
  avl_insert avl_new (_avl_node_new 10)
  = Returns (0, Some (mk_avl (Node NULL NULL 1 10) 1 None None false None)) /\
  avl_free 1000 (Some (mk_avl (Node NULL NULL 1 10) 1 None None false None)) = None.
Proof.
  split; [reflexivity|].
  apply (avl_free_without_comparator Z
           (mk_avl (Node NULL NULL 1 10) 1 None None false None) 1000);
    [reflexivity|discriminate].
Defined.

(** ** Every walk order visits every node *)

Section WalkOrders.

Context {V : Type}.
Implicit Types root l r : @avl_node V.

Lemma post_order_fold (W : Type) (act : @avl_node V -> W -> W) root w :
  post_order root (Some act) w = fold_left (fun w n => act n w) (postorder root) w.
Proof.
  revert w. induction root as [|l IHl r IHr h v]; intros w; [reflexivity|].
  cbn [post_order postorder]. rewrite !fold_left_app. cbn [fold_left].
  rewrite IHl, IHr. reflexivity.
Qed.

Lemma postorder_nodes root : Permutation (postorder root) (nodes root).
Proof.
  induction root as [|l IHl r IHr h v]; cbn [postorder nodes]; [constructor|].
  rewrite app_assoc, <- Permutation_cons_append. constructor.
  apply Permutation_app; assumption.
Qed.

Lemma tree_order_record root :
  tree_order root (Some record_visit) []
  = flat_map (at_level root) (levels (height root)).
Proof.
  destruct root as [|l r h v]; [reflexivity|].
  unfold tree_order, levels. rewrite tree_order_loop_fold. apply run_record.
Qed.

Lemma tree_order_fold (W : Type) (act : @avl_node V -> W -> W) root w :
  tree_order root (Some act) w
  = fold_left (fun w n => act n w) (tree_order root (Some record_visit) []) w.
Proof.
  rewrite tree_order_record. destruct root as [|l r h v]; [reflexivity|].
  unfold tree_order, levels. apply tree_order_loop_fold.
Qed.

Lemma tree_order_nodes root :
  avl_inv root -> Permutation (tree_order root (Some record_visit) []) (nodes root).
Proof.
  intros Hinv. rewrite tree_order_record. unfold levels, at_level.
  rewrite passes_cover. rewrite forallb_filter_id; [reflexivity|].
  apply forallb_forall. pose proof (nodes_height_range root Hinv) as Hrange.
  rewrite Forall_forall in Hrange. intros n Hn. specialize (Hrange n Hn).
  pose proof (avl_inv_height_nonneg root Hinv).
  apply andb_true_intro. split; apply Z.leb_le; lia.
Qed.

(** X10.  Whatever the order, [avl_walk] invokes the action exactly once on
    every node of the tree (for the tree order, when the cached heights
    meet the AVL condition), and what any action [act] makes of the world
    is [act] run along the sequence the recording action yields.  The
    pre-order walk starts with the root and the post-order walk ends with
    it.  With a null tree or a null action nothing is invoked. *)
Theorem avl_walk_visits_all (t : avl) (order : avl_order) :
  order <> avl_tree_order \/ avl_inv (root t) ->
  let visited := avl_walk (Some t) order (Some record_visit) [] in
  Permutation visited (nodes (root t)) /\
  (forall (W : Type) (act : avl_node -> W -> W) (w : W),
     avl_walk (Some t) order (Some act) w = fold_left (fun w n => act n w) visited w /\
     avl_walk (@None (@avl V)) order (Some act) w = w /\
     avl_walk (Some t) order None w = w) /\
  (root t <> NULL -> order = avl_pre_order -> hd_error visited = Some (root t)) /\
  (root t <> NULL -> order = avl_post_order -> last visited NULL = root t).
Proof.
  intros Hord. cbv zeta. unfold avl_walk, _avl_walk.
  destruct (root t) as [|l r h v] eqn:E.
  { split; [constructor|]. split; [intros; repeat split|]. split; congruence. }
  split; [|split; [|split]].
  - destruct order.
    + rewrite forward_order_record. apply inorder_nodes.
    + rewrite reverse_order_record, <- Permutation_rev. apply inorder_nodes.
    + rewrite pre_order_record. reflexivity.
    + rewrite post_order_fold, run_record. apply postorder_nodes.
    + destruct Hord as [Hord|Hinv]; [congruence|]. apply tree_order_nodes. exact Hinv.
  - intros W act w. split; [|split; reflexivity].
    destruct order.
    + rewrite forward_order_record. apply forward_order_fold.
    + rewrite reverse_order_record. apply reverse_order_fold.
    + rewrite pre_order_record. apply pre_order_fold.
    + rewrite (post_order_fold _ record_visit), run_record. apply post_order_fold.
    + apply tree_order_fold.
  - intros _ ->. rewrite pre_order_record. reflexivity.
  - intros _ ->. rewrite post_order_fold, run_record. cbn [postorder app].
    rewrite app_assoc. apply last_last.
Qed.

End WalkOrders.

Lemma avl_walk_visits_all_witness :
  avl_inv (root demo_tree) /\
  payloads (avl_walk (Some demo_tree) avl_tree_order (Some record_visit) [])
  = [30; 20; 49; 10; 25; 40; 16; 26; 32; 50] /\
  Permutation (avl_walk (Some demo_tree) avl_tree_order (Some record_visit) [])
    (nodes (root demo_tree)).
Proof.
  split; [exact demo_tree_avl_inv|]. split; [reflexivity|].
  apply (avl_walk_visits_all demo_tree avl_tree_order (or_intror demo_tree_avl_inv)).
Defined.

(** ** Rotations *)

Section Rotations.

Context {V : Type}.
Variable cmp : @avl_cmp_node V.
Hypothesis Hcmp : total_order cmp.
Implicit Types root l r : @avl_node V.


End Rotations.


(** ** Lookup on any tree, and the leftmost node *)

Section LookupSound.

Context {V : Type}.
Variable cmp : @avl_cmp_node V.
Implicit Types root l r target : @avl_node V.

Lemma _avl_find_sound root target n :
  _avl_find root target cmp = n ->
  n = NULL \/ (In n (nodes root) /\ cmp target n = 0).
Proof.
  revert n. induction root as [|l IHl r IHr h v]; intros n Hf.
  - left. destruct target; cbn in Hf; congruence.
  - destruct target as [|tl tr th tv]; [left; cbn in Hf; congruence|].
    cbn [_avl_find] in Hf.
    destruct (Z.eqb_spec (cmp (Node tl tr th tv) (Node l r h v)) 0) as [He|He].
    { right. subst n. split; [left; reflexivity|exact He]. }
    destruct (cmp (Node tl tr th tv) (Node l r h v) <? 0).
    { destruct (IHl n Hf) as [Hn|(Hin & Hk)]; [left; exact Hn|right].
      split; [apply nodes_left; exact Hin|exact Hk]. }
    destruct (cmp (Node tl tr th tv) (Node l r h v) >? 0).
    { destruct (IHr n Hf) as [Hn|(Hin & Hk)]; [left; exact Hn|right].
      split; [apply nodes_right; exact Hin|exact Hk]. }
    left. congruence.
Qed.

(** X12.  Whatever the shape of the tree and whatever the comparator
    installed, a node [avl_find] returns is a node of the tree on which the
    comparator returns 0 for the target; [avl_find] never returns a node
    from elsewhere or one that compares unequal. *)
Theorem avl_find_sound (t : avl) target n :
  cmp_node t = Some cmp ->
  avl_find (Some t) target = Returns n ->
  n = NULL \/ (In n (nodes (root t)) /\ cmp target n = 0).
Proof.
  intros Hc Hf. unfold avl_find, enter_avl_find in Hf. rewrite Hc in Hf.
  destruct target as [|tl tr th tv]; [left; congruence|].
  destruct (root t) as [|l r h v] eqn:E; [left; congruence|].
  injection Hf as Hf. apply (_avl_find_sound (Node l r h v) (Node tl tr th tv) n Hf).
Qed.

Lemma minimum_node_leftmost l r h (v : V) ml mr mh mv :
  minimum_node (Node l r h v) = Node ml mr mh mv ->
  ml = NULL /\ In (Node ml mr mh mv) (nodes (Node l r h v)).
Proof.
  revert r h v. induction l as [|ll IHll lr _ lh lv]; intros r h v Hmin.
  - cbn in Hmin. injection Hmin as <- <- <- <-. split; [reflexivity|left; reflexivity].
  - cbn [minimum_node] in Hmin. destruct (IHll lr lh lv Hmin) as (Hnull & Hin).
    split; [exact Hnull|]. apply nodes_left. exact Hin.
Qed.

Hypothesis Hcmp : total_order cmp.

(** X13.  On a non-empty search tree [minimum_node] returns a node of the
    tree without a left child whose payload comes first in forward order
    and whose key is below the key of every other payload. *)
Theorem minimum_node_least l r h (v : V) :
  bst cmp (Node l r h v) ->
  exists mr mh mv rest,
    minimum_node (Node l r h v) = Node NULL mr mh mv /\
    In (Node NULL mr mh mv) (nodes (Node l r h v)) /\
    values (Node l r h v) = mv :: rest /\
    Forall (fun w => key cmp mv w < 0) rest.
Proof.
  intros Hbst.
  destruct (minimum_node (Node l r h v)) as [|ml mr mh mv] eqn:Hmin.
  { exfalso. apply (minimum_node_not_null l r h v). exact Hmin. }
  destruct (minimum_node_leftmost l r h v ml mr mh mv Hmin) as (-> & Hin).
  destruct (minimum_node_values l r h v NULL mr mh mv Hmin) as (rest & Hv & _).
  exists mr, mh, mv, rest. split; [reflexivity|]. split; [exact Hin|].
  split; [exact Hv|].
  pose proof (bst_values_sorted cmp Hcmp _ Hbst) as Hs. rewrite Hv in Hs.
  inversion Hs; subst. assumption.
Qed.

End LookupSound.

Lemma avl_find_sound_witness :
  cmp_node demo_tree = Some compare /\
  avl_find (Some demo_tree) (_avl_node_new 26) = Returns (Node NULL NULL 1 26) /\
  In (Node NULL NULL 1 26) (nodes (root demo_tree)).
Proof.
  split; [reflexivity|]. split; [reflexivity|].
  destruct (avl_find_sound compare demo_tree (_avl_node_new 26) (Node NULL NULL 1 26)
              eq_refl eq_refl) as [Hn|(Hin & _)]; [discriminate|exact Hin].
Defined.

Lemma minimum_node_least_witness :
  bst compare (root demo_tree) /\
  exists mr mh mv rest,
    minimum_node (root demo_tree) = Node NULL mr mh mv /\
    values (root demo_tree) = mv :: rest.
Proof.
  split; [exact demo_tree_bst|].
  destruct (minimum_node_least compare compare_total_order
              (Node (Node NULL (Node NULL NULL 1 16) 2 10) (Node NULL (Node NULL NULL 1 26) 2 25) 3 20)
              (Node (Node (Node NULL NULL 1 32) NULL 2 40) (Node NULL NULL 1 50) 3 49)
              4 30 demo_tree_bst)
    as (mr & mh & mv & rest & Hm & _ & Hv & _).
  exists mr, mh, mv, rest. split; [exact Hm|exact Hv].
Defined.

(** ** The cached tree height *)

Section HeightCache.

Context {V : Type}.
Variable cmp : @avl_cmp_node V.
Hypothesis Hcmp : total_order cmp.

(** X14.  On every non-empty reachable tree the cached tree height is the
    root's cached height, which is the number of nodes on the longest path
    from the root down. *)
Theorem reachable_height_cache (t : avl) :
  reachable cmp t -> root t <> NULL ->
  avl_height t = height (root t) /\ avl_height t = Z.of_nat (depth (root t)).
Proof.
  intros Hreach Hroot.
  assert (Hh : avl_height t = height (root t)).
  { destruct Hreach as [t Hnull _|t v t' Hreach Hins|t target t' log Hreach Hdel].
    - congruence.
    - destruct (reachable_inv cmp Hcmp t Hreach) as (Hc & _).
      pose proof (avl_insert_commits cmp t NULL NULL 1 v Hc) as Hins'.
      unfold _avl_node_new in Hins. rewrite Hins' in Hins. injection Hins as <-.
      reflexivity.
    - unfold avl_delete in Hdel. destruct target as [|tl tr th tv]; [discriminate|].
      destruct (fst (_avl_delete (root t) (Node tl tr th tv)
                       (cmp_node t) (free_node t))); [discriminate|].
      injection Hdel as <- _. reflexivity. }
  split; [exact Hh|]. rewrite Hh. apply avl_inv_depth.
  apply (reachable_inv cmp Hcmp t Hreach).
Qed.

(** X15.  [avl_dup] leaves the cached height of the new tree at 0: for a
    non-empty search tree (comparator installed, duplicate hook unset or
    making a fresh node with the same payload) the duplicate has a root of
    height at least 1 and yet a cached tree height of 0. *)
Theorem avl_dup_height_stale (t : avl) :
  cmp_node t = Some cmp ->
  (forall l r h v, avl_node_dup (Some t) (Node l r h v) = _avl_node_new v) ->
  bst cmp (root t) -> root t <> NULL ->
  exists t',
    avl_dup (Some t) = Returns (Some t') /\
    avl_height t' = 0 /\ 1 <= height (root t').
Proof.
  intros Hc Hdup Hbst Hroot.
  destruct (avl_dup_sound cmp Hcmp t Hc Hdup Hbst) as (t' & Hd & Hv & Hok & _).
  exists t'. split; [exact Hd|]. split.
  - unfold avl_dup in Hd. destruct (dup_tree (Some t) NULL (root t)); [|discriminate].
    cbn [bind] in Hd. injection Hd as <-. reflexivity.
  - rewrite !forward_order_record, !payloads_inorder in Hv.
    assert (Hinv : avl_inv (root t')).
    { apply avl_inv_nodes. rewrite Forall_forall. exact Hok. }
    destruct (root t') as [|l' r' h' v'].
    + destruct (root t) as [|l r h v]; [congruence|].
      cbn [values] in Hv. destruct (values l); discriminate.
    + cbn [height]. apply (avl_inv_height_pos _ _ _ _ Hinv).
Qed.

End HeightCache.

Lemma reachable_height_cache_witness :
  reachable compare demo_tree_less_16 /\ root demo_tree_less_16 <> NULL /\
  avl_height demo_tree_less_16 = 4 /\ depth (root demo_tree_less_16) = 4%nat.
Proof.
  split; [exact demo_tree_less_16_reachable|]. split; [discriminate|].
  destruct (reachable_height_cache compare compare_total_order demo_tree_less_16
              demo_tree_less_16_reachable ltac:(discriminate)) as (_ & Hd).
  split; [reflexivity|]. apply Nat2Z.inj. rewrite <- Hd. reflexivity.
Defined.

Lemma avl_dup_height_stale_witness :
  cmp_node left_tree = Some compare /\ bst compare (root left_tree) /\
  root left_tree <> NULL /\
  exists t', avl_dup (Some left_tree) = Returns (Some t') /\ avl_height t' = 0.
Proof.
  split; [reflexivity|]. split; [exact left_tree_bst|]. split; [discriminate|].
  destruct (avl_dup_height_stale compare compare_total_order left_tree eq_refl
              (fun l r h v => eq_refl) left_tree_bst ltac:(discriminate))
    as (t' & Hd & Hh & _).
  exists t'. split; [exact Hd|exact Hh].
Defined.

(** ** A tree without a comparator *)

Section NoComparator.

Context {V : Type}.
Variable t : @avl V.
Hypothesis Hnone : cmp_node t = None.
Hypothesis Hdup : forall l r h v, avl_node_dup (Some t) (Node l r h v) = _avl_node_new v.
Implicit Types old acc : @avl_node V.

Lemma dup_tree_second old acc :
  old <> NULL -> acc <> NULL -> dup_tree (Some t) acc old = Undefined.
Proof.
  revert acc. induction old as [|l IHl r IHr h v]; intros acc Hold Hacc; [congruence|].
  cbn [dup_tree]. destruct l as [|ll lr lh lv].
  - cbn [bind]. rewrite Hdup. unfold _avl_node_new. rewrite Hnone.
    destruct acc; [congruence|reflexivity].
  - rewrite (IHl acc) by (discriminate || assumption). reflexivity.
Qed.

Lemma dup_tree_first old :
  old <> NULL ->
  dup_tree (Some t) NULL old = Undefined \/
  (size old = 1%nat /\ exists n, n <> NULL /\ dup_tree (Some t) NULL old = Returns n).
Proof.
  induction old as [|l IHl r IHr h v]; intros Hold; [congruence|].
  cbn [dup_tree]. destruct l as [|ll lr lh lv].
  - cbn [bind]. rewrite Hdup. unfold _avl_node_new. cbn [enter_avl_insert bind].
    destruct r as [|rl rr rh rv].
    + right. split; [reflexivity|]. eexists. split; [|reflexivity]. discriminate.
    + left. apply dup_tree_second; discriminate.
  - left. destruct IHl as [E|(_ & n & Hn & E)]; [discriminate| |]; rewrite E; cbn [bind].
    + reflexivity.
    + rewrite Hdup. unfold _avl_node_new. rewrite Hnone.
      destruct n; [congruence|reflexivity].
Qed.

(** X16.  With no comparator installed: on an empty tree [avl_insert] of a
    non-null item returns 0 and makes the item the root, [avl_find] returns
    NULL and [avl_delete] returns -1; on a non-empty tree [avl_insert] and
    [avl_find] call through the null comparator pointer, which has no
    defined result, while [avl_delete] returns 0, releases nothing, keeps
    the root and stores the root's height in the cached tree height (the
    struct is unchanged when that field was in step); and [avl_dup] of a
    tree of two or more nodes calls through the null pointer at the second
    node. *)
Theorem without_comparator il ir ih (iv : V) :
  let item := Node il ir ih iv in
  (root t = NULL ->
   avl_insert (Some t) item = Returns (0, Some (commit_root t item)) /\
   avl_find (Some t) item = Returns NULL /\
   avl_delete (Some t) item = (-1, Some t, [])) /\
  (root t <> NULL ->
   avl_insert (Some t) item = Undefined /\
   avl_find (Some t) item = Undefined /\
   avl_delete (Some t) item = (0, Some (commit_root t (root t)), []) /\
   root (commit_root t (root t)) = root t /\
   avl_height (commit_root t (root t)) = height (root t) /\
   (avl_height t = height (root t) -> avl_delete (Some t) item = (0, Some t, []))) /\
  ((2 <= size (root t))%nat -> avl_dup (Some t) = Undefined).
Proof.
  cbv zeta. split; [|split].
  - intros E. unfold avl_insert, avl_find, avl_delete, enter_avl_insert, enter_avl_find.
    rewrite E. repeat split.
  - intros Hroot.
    assert (Hdel : avl_delete (Some t) (Node il ir ih iv)
                   = (0, Some (commit_root t (root t)), [])).
    { unfold avl_delete. rewrite Hnone. destruct (root t) as [|l r h v]; [congruence|].
      rewrite _avl_delete_equation_4. reflexivity. }
    unfold avl_insert, avl_find, enter_avl_insert, enter_avl_find.
    rewrite Hnone. destruct (root t) as [|l r h v] eqn:E; [congruence|].
    split; [reflexivity|]. split; [reflexivity|]. split; [exact Hdel|].
    split; [reflexivity|]. split; [reflexivity|].
    intros Hh. rewrite Hdel. rewrite <- E in Hh |- *.
    rewrite (commit_root_same t Hh). reflexivity.
  - intros Hs. unfold avl_dup.
    destruct (dup_tree_first (root t)) as [E|(Hone & _)].
    + intros E. rewrite E in Hs. cbn in Hs. lia.
    + rewrite E. reflexivity.
    + lia.
Qed.

End NoComparator.

Lemma without_comparator_witness :
  cmp_node (mk_avl (Node NULL NULL 1 10) 1 None None false (@None (@avl_cmp_node Z))) = None /\
  avl_insert (Some (mk_avl (Node NULL NULL 1 10) 1 None None false None)) (_avl_node_new 20)
  = Undefined /\
  avl_delete (Some (mk_avl (Node NULL NULL 1 10) 1 None None false None)) (_avl_node_new 10)
  = (0, Some (mk_avl (Node NULL NULL 1 10) 1 None None false None), []).
Proof.
  split; [reflexivity|].
  destruct (proj1 (proj2 (without_comparator
              (mk_avl (Node NULL NULL 1 10) 1 None None false None) eq_refl
              (fun l r h v => eq_refl) NULL NULL 1 20)) ltac:(discriminate))
    as (Hi & _ & _).
  destruct (proj1 (proj2 (without_comparator
              (mk_avl (Node NULL NULL 1 10) 1 None None false None) eq_refl
              (fun l r h v => eq_refl) NULL NULL 1 10)) ltac:(discriminate))
    as (_ & _ & Hd & _).
  split; [exact Hi|exact Hd].
Defined.

(** ** Concrete runs of the composition properties *)

Lemma avl_insert_never_fails_witness :
  cmp_node demo_tree = Some compare /\
  exists t', avl_insert (Some demo_tree) (_avl_node_new 16) = Returns (0, Some t').
Proof.
  split; [reflexivity|].
  destruct (avl_insert_never_fails compare demo_tree 16 compare_total_order eq_refl
              demo_tree_avl_inv) as (H & _).
  eexists. exact H.
Defined.

Lemma avl_insert_adds_key_witness :
  cmp_node demo_tree = Some compare /\ bst compare (root demo_tree) /\
  avl_inv (root demo_tree) /\ same_keys compare 35 (values (root demo_tree)) = [] /\
  exists t',
    avl_insert (Some demo_tree) (_avl_node_new 35) = Returns (0, Some t') /\
    values (root t') = [10; 16; 20; 25; 26; 30; 32; 35; 40; 49; 50].
Proof.
  split; [reflexivity|]. split; [exact demo_tree_bst|].
  split; [exact demo_tree_avl_inv|]. split; [reflexivity|].
  destruct (avl_insert_adds_key compare compare_total_order demo_tree 35 eq_refl
              demo_tree_bst demo_tree_avl_inv eq_refl) as (t' & Hi & Hv & _).
  exists t'. split; [exact Hi|]. rewrite Hv. reflexivity.
Defined.

Lemma avl_insert_then_find_witness :
  cmp_node demo_tree = Some compare /\ bst compare (root demo_tree) /\
  exists t' n,
    avl_insert (Some demo_tree) (_avl_node_new 35) = Returns (0, Some t') /\
    avl_find (Some t') (Node NULL NULL 1 35) = Returns n /\
    compare (Node NULL NULL 1 35) n = 0.
Proof.
  split; [reflexivity|]. split; [exact demo_tree_bst|].
  destruct (avl_insert_then_find compare compare_total_order demo_tree 35 NULL NULL 1
              eq_refl demo_tree_bst demo_tree_avl_inv) as (t' & n & Hi & Hf & _ & Hk).
  exists t', n. split; [exact Hi|]. split; [exact Hf|exact Hk].
Defined.

Lemma avl_delete_then_find_witness :
  cmp_node demo_tree = Some compare /\ bst compare (root demo_tree) /\
  avl_delete (Some demo_tree) (Node NULL NULL 1 16)
  = (0, Some demo_tree_less_16, [Released false 16]) /\
  avl_find (Some demo_tree_less_16) (Node NULL NULL 1 16) = Returns NULL.
Proof.
  split; [reflexivity|]. split; [exact demo_tree_bst|]. split; [reflexivity|].
  apply (avl_delete_then_find compare compare_total_order demo_tree demo_tree_less_16
           NULL NULL 1 16 [Released false 16] eq_refl demo_tree_bst demo_tree_avl_inv
           eq_refl NULL NULL 1 16 eq_refl).
Defined.

Lemma avl_insert_delete_inverse_witness :
  cmp_node demo_tree = Some compare /\ bst compare (root demo_tree) /\
  avl_inv (root demo_tree) /\ root demo_tree <> NULL /\
  same_keys compare 35 (values (root demo_tree)) = [] /\
  exists t1 t2,
    avl_insert (Some demo_tree) (_avl_node_new 35) = Returns (0, Some t1) /\
    avl_delete (Some t1) (Node NULL NULL 1 35) = (0, Some t2, [Released false 35]) /\
    values (root t2) = values (root demo_tree).
Proof.
  split; [reflexivity|]. split; [exact demo_tree_bst|].
  split; [exact demo_tree_avl_inv|]. split; [discriminate|]. split; [reflexivity|].
  destruct (avl_insert_delete_inverse compare compare_total_order demo_tree 35 NULL NULL 1
              eq_refl demo_tree_bst demo_tree_avl_inv ltac:(discriminate) eq_refl)
    as (t1 & t2 & Hi & Hd & Hv & _).
  exists t1, t2. split; [exact Hi|]. split; [exact Hd|exact Hv].
Defined.

(** ** Items that are not fresh nodes *)

(** Counterexample to C1 as stated: [avl_insert] links whatever node it is
    given.  A node whose height field is 5 goes into the empty tree with
    return value 0, and the root then fails the height equation. *)
Lemma avl_insert_stale_item_counterexample :
  avl_insert (Some empty_tree) (Node NULL NULL 5 10)
  = Returns (0, Some (mk_avl (Node NULL NULL 5 10) 5 None None false (Some compare))) /\
  In (Node NULL NULL 5 10)
     (nodes (root (mk_avl (Node NULL NULL 5 10) 5 None None false (Some compare)))) /\
  ~ node_ok (Node (@NULL Z) NULL 5 10).
Proof.
  split; [reflexivity|]. split; [left; reflexivity|].
  cbn. intros (_ & H). discriminate H.
Qed.
